(** * Prize picker: a shallow embedding of [picker.js] and its properties

    The repository is one request handler.  It reads [req.url], cuts the
    query string off, splits the path into segments, parses every segment
    as [name_weight], and draws one name with a chance proportional to
    its weight.

    Conventions of the embedding.

    - A JavaScript string is a [string]: every [ascii] is one code unit.
      The URL a Node server hands to the handler is decoded one byte per
      code unit, so the code units are in 0..255.
    - A JavaScript number is a double.  The numbers the handler computes
      from the URL ([parseInt] results and their sums) hold integers, so
      they are a [JS.number]: [NaN], an infinity, or [Num z] for the
      double whose value is the integer [z].  They are rounded to
      53 significant bits, to nearest and ties to even, and overflow to
      an infinity, as the double operations do ([JS.round53],
      [JS.ofInt]).  The two zeros are both [Num 0]; the handler never
      tells them apart.
    - [Math.random()] is the one effect of the handler.  Its result, a
      double in [0, 1), is passed to the handler as [random], the double
      counted in units of 2^-1074, of which every double below 1 is a
      whole multiple.  The winning number, a double again, is counted in
      the same units ([JS.scaled]).
    - [res.status(c).json(o)] is the returned [response]: the status code
      and the fields of [o] in the order they are written. *)

From Stdlib Require Import ZArith Lia Bool List Ascii String.
From Stdlib Require Import DecimalString DecimalN DecimalPos.
Import ListNotations.

Local Open Scope string_scope.
Local Open Scope Z_scope.

(** ** JavaScript built-ins used by the handler *)

Module JS.

(** [s.split(sep)] for a separator of one code unit: the pieces of [s]
    between the occurrences of [sep], in order.  There is always at
    least one piece; the empty string gives one empty piece. *)
Fixpoint split (sep : ascii) (s : string) : list string :=
  match s with
  | EmptyString => [EmptyString]
  | String c rest =>
      if Ascii.eqb c sep then EmptyString :: split sep rest
      else match split sep rest with
           | [] => [String c EmptyString]
           | piece :: pieces => String c piece :: pieces
           end
  end.

(** [parts[i]] read as a string; the handler only indexes inside the
    array, the default stands for [undefined] and is never produced. *)
Definition item (parts : list string) (i : nat) : string :=
  nth i parts EmptyString.

(** The white space [parseInt] skips (WhiteSpace and LineTerminator of
    ECMAScript) among the code units 0..255: TAB, LF, VT, FF, CR, SP and
    NBSP. *)
Definition isWhiteSpace (c : ascii) : bool :=
  match N_of_ascii c with
  | 9%N | 10%N | 11%N | 12%N | 13%N | 32%N | 160%N => true
  | _ => false
  end.

Fixpoint trimStart (s : string) : string :=
  match s with
  | EmptyString => EmptyString
  | String c rest => if isWhiteSpace c then trimStart rest else s
  end.

(** A radix-10 digit and its value. *)
Definition isDigit (c : ascii) : bool :=
  ((48 <=? N_of_ascii c) && (N_of_ascii c <=? 57))%N.

Definition digitValue (c : ascii) : Z :=
  Z.of_N (N_of_ascii c) - 48.

(** The longest prefix of [s] made of radix-10 digits. *)
Fixpoint digitsPrefix (s : string) : string :=
  match s with
  | EmptyString => EmptyString
  | String c rest =>
      if isDigit c then String c (digitsPrefix rest) else EmptyString
  end.

(** The integer a string of digits denotes, most significant first. *)
Fixpoint mathIntFrom (acc : Z) (digits : string) : Z :=
  match digits with
  | EmptyString => acc
  | String c rest => mathIntFrom (10 * acc + digitValue c) rest
  end.

Definition mathInt (digits : string) : Z := mathIntFrom 0 digits.

(** The non-negative integer [n] rounded to 53 significant bits, to
    nearest and ties to even: below 2^53 every integer is kept; above,
    with [e = floor(log2 n) - 52], the result is the multiple of [2^e]
    nearest to [n]. *)
Definition round53 (n : Z) : Z :=
  let e := Z.log2 n - 52 in
  if e <=? 0 then n
  else
    let q := n / 2 ^ e in
    let r := n mod 2 ^ e in
    let half := 2 ^ (e - 1) in
    let q' :=
      if r <? half then q
      else if half <? r then q + 1
      else if Z.even q then q else q + 1 in
    q' * 2 ^ e.

(** A number that holds an integer. *)
Inductive number :=
| NaN
| Num (z : Z)
| Infinity
| NegInfinity.

(** The double for the integer [z]: [z] rounded, an infinity when the
    rounded magnitude reaches 2^1024. *)
Definition ofInt (z : Z) : number :=
  let a := round53 (Z.abs z) in
  if 2 ^ 1024 <=? a then (if z <? 0 then NegInfinity else Infinity)
  else Num (Z.sgn z * a).

(** [parseInt(s, 10)]: skip leading white space, read one optional sign,
    take the longest run of digits and ignore whatever follows it.
    No digit at all is [NaN]; otherwise the result is the double for the
    signed value of the digits.  All the digits count, as in V8;
    ECMAScript also lets an engine read the digits after the 20th as
    zeros. *)
Definition parseInt (s : string) : number :=
  let trimmed := trimStart s in
  let sign :=
    match trimmed with
    | String "-" _ => -1
    | _ => 1
    end in
  let unsigned :=
    match trimmed with
    | String "-" rest => rest
    | String "+" rest => rest
    | _ => trimmed
    end in
  match digitsPrefix unsigned with
  | EmptyString => NaN
  | digits => ofInt (sign * mathInt digits)
  end.

Definition isNaN (n : number) : bool :=
  match n with NaN => true | _ => false end.

(** [n <= 0]; every comparison with [NaN] is false. *)
Definition leZero (n : number) : bool :=
  match n with
  | NaN => false
  | Num z => z <=? 0
  | Infinity => false
  | NegInfinity => true
  end.

(** [a + b]: the exact sum, rounded. *)
Definition add (a b : number) : number :=
  match a, b with
  | NaN, _ | _, NaN => NaN
  | Num x, Num y => ofInt (x + y)
  | Infinity, NegInfinity | NegInfinity, Infinity => NaN
  | Infinity, _ | _, Infinity => Infinity
  | NegInfinity, _ | _, NegInfinity => NegInfinity
  end.

(** The number of units of 2^-1074 in 1. *)
Definition unit : Z := 2 ^ 1074.

(** A double counted in units of 2^-1074. *)
Inductive scaled :=
| SNaN
| SNum (units : Z)
| SInfinity
| SNegInfinity.

(** [random * t], for [random] a double in [0, 1) given in units of
    2^-1074: the exact product, [random * z] units, rounded (it is
    below [z] in magnitude, so it does not overflow); 0 times an
    infinity is [NaN]. *)
Definition mulRandom (random : Z) (t : number) : scaled :=
  match t with
  | NaN => SNaN
  | Num z => SNum (Z.sgn z * round53 (random * Z.abs z))
  | Infinity => if random =? 0 then SNaN else SInfinity
  | NegInfinity => if random =? 0 then SNaN else SNegInfinity
  end.

(** [w < c]. *)
Definition ltb (w : scaled) (c : number) : bool :=
  match w, c with
  | SNaN, _ | _, NaN => false
  | SNum u, Num z => u <? z * unit
  | SNum _, Infinity => true
  | SNum _, NegInfinity => false
  | SInfinity, _ => false
  | SNegInfinity, NegInfinity => false
  | SNegInfinity, _ => true
  end.

End JS.

(** ** The handler *)

(** One [{ name, weight }] object of the [prizes] array. *)
Record prize := { name : string; weight : JS.number }.

(** A JSON value of a response body. *)
Inductive json :=
| JString (s : string)
| JNull.

(** What [res.status(code).json(obj)] sends. *)
Record response := { status : Z; body : list (string * json) }.

(** The variables the parsing loop updates. *)
Record parse_state :=
  { totalWeight : JS.number; prizes : list prize; isValid : bool }.

Definition usage_hint : string :=
  "Append prizes and their percentages to the URL path, e.g., /prizeA_50/prizeB_30/prizeC_20".

Definition format_hint : string :=
  "Segments must follow the format: item_percentage (e.g., /apple_40/banana_60). Percentages must be positive numbers.".

(** [req.url.split('?')[0]] *)
Definition path_of (url : string) : string :=
  JS.item (JS.split "?" url) 0.

(** The predicate of the [filter] call. *)
Definition keep_segment (s : string) : bool :=
  negb (Nat.eqb (String.length s) 0)
  && negb (String.eqb s "api") && negb (String.eqb s "picker").

(** [path.split('/').filter(...)] *)
Definition segments_of (path : string) : list string :=
  filter keep_segment (JS.split "/" path).

(** The parsing loop, step 2 of the handler: [break] leaves the loop with
    [isValid] false and keeps whatever was accumulated so far. *)
Fixpoint parse_loop (segments : list string) (st : parse_state) : parse_state :=
  match segments with
  | [] => st
  | segment :: rest =>
      let parts := JS.split "_" segment in
      if negb (Nat.eqb (List.length parts) 2) then
        {| totalWeight := totalWeight st; prizes := prizes st; isValid := false |}
      else
        let name := JS.item parts 0 in
        let weight := JS.parseInt (JS.item parts 1) in
        if JS.isNaN weight || JS.leZero weight then
          {| totalWeight := totalWeight st; prizes := prizes st; isValid := false |}
        else
          parse_loop rest
            {| totalWeight := JS.add (totalWeight st) weight;
               prizes := prizes st ++ [{| name := name; weight := weight |}];
               isValid := isValid st |}
  end.

Definition parse_init : parse_state :=
  {| totalWeight := JS.Num 0; prizes := []; isValid := true |}.

(** The selection loop, step 4 of the handler: [None] is [winner] left at
    [null] when the loop runs off the end of the array. *)
Fixpoint select_loop (winningNumber : JS.scaled) (prizes : list prize)
    (cumulativeWeight : JS.number) : option string :=
  match prizes with
  | [] => None
  | prize :: rest =>
      let cumulativeWeight := JS.add cumulativeWeight (weight prize) in
      if JS.ltb winningNumber cumulativeWeight then Some (name prize)
      else select_loop winningNumber rest cumulativeWeight
  end.

(** Steps 3 and 4: the draw scaled to the total weight, then the loop. *)
Definition selectWinner (prizes : list prize) (totalWeight : JS.number)
    (random : Z) : option string :=
  let winningNumber := JS.mulRandom random totalWeight in
  select_loop winningNumber prizes (JS.Num 0).

Definition json_of_winner (winner : option string) : json :=
  match winner with
  | Some label => JString label
  | None => JNull
  end.

Definition no_prizes_response : response :=
  {| status := 400;
     body := [("error", JString "No prizes provided.");
              ("usage", JString usage_hint)] |}.

Definition invalid_format_response : response :=
  {| status := 400;
     body := [("error", JString "Invalid format detected.");
              ("details", JString format_hint)] |}.

(** [module.exports]: the request is its [url], and [random] is what
    [Math.random()] returns when the handler gets to call it. *)
Definition handler (url : string) (random : Z) : response :=
  let path := path_of url in
  let segments := segments_of path in
  if Nat.eqb (List.length segments) 0 then no_prizes_response
  else
    let st := parse_loop segments parse_init in
    if negb (isValid st) then invalid_format_response
    else
      let winner := selectWinner (prizes st) (totalWeight st) random in
      {| status := 200; body := [("winner", json_of_winner winner)] |}.

(** ** The operations the specification names, as views of the handler *)

Inductive parse_error := NoPrizesProvided | InvalidFormat.

(** [parseInput]: steps 1 and 2 of the handler, up to the two early
    returns. *)
Definition parseInput (rawPath : string)
  : parse_error + (list prize * JS.number) :=
  let segments := segments_of (path_of rawPath) in
  if Nat.eqb (List.length segments) 0 then inl NoPrizesProvided
  else
    let st := parse_loop segments parse_init in
    if negb (isValid st) then inl InvalidFormat
    else inr (prizes st, totalWeight st).

(** The weight check of the parsing loop fails on this weight-string:
    [isNaN(weight) || weight <= 0]. *)
Definition bad_weight (weightString : string) : bool :=
  JS.isNaN (JS.parseInt weightString) || JS.leZero (JS.parseInt weightString).

(** What one round of the parsing loop accepts: the entry a segment
    stands for, when the loop does not [break] on it. *)
Definition entry_of (segment : string) : option prize :=
  match JS.split "_" segment with
  | [label; weightString] =>
      if bad_weight weightString then None
      else Some {| name := label; weight := JS.parseInt weightString |}
  | _ => None
  end.

Definition valid_segment (segment : string) : bool :=
  match entry_of segment with Some _ => true | None => false end.

(** Does the code unit [c] occur in [s], and how often. *)
Fixpoint occurs (c : ascii) (s : string) : bool :=
  match s with
  | EmptyString => false
  | String d rest => Ascii.eqb d c || occurs c rest
  end.

Fixpoint count_char (c : ascii) (s : string) : nat :=
  match s with
  | EmptyString => O
  | String d rest => (if Ascii.eqb d c then 1 else 0) + count_char c rest
  end.

Fixpoint all_digits (s : string) : bool :=
  match s with
  | EmptyString => true
  | String c rest => JS.isDigit c && all_digits rest
  end.

Fixpoint all_white (s : string) : bool :=
  match s with
  | EmptyString => true
  | String c rest => JS.isWhiteSpace c && all_white rest
  end.

Fixpoint all_zeros (s : string) : bool :=
  match s with
  | EmptyString => true
  | String c rest => Ascii.eqb c "0" && all_zeros rest
  end.

(** The text does not go on with a digit: it is over, or its first code
    unit is not a digit. *)
Definition stops_digits (s : string) : bool :=
  match s with
  | EmptyString => true
  | String c _ => negb (JS.isDigit c)
  end.

(** The factor [parseInt] applies for the sign it read. *)
Definition sign_factor (sign : string) : Z :=
  match sign with
  | String "-" _ => -1
  | _ => 1
  end.

(** The value of a string of decimal digits as the standard library
    reads decimal numerals; no value when the string is not made of
    digits only. *)
Definition decimal_value (digits : string) : option Z :=
  match NilEmpty.uint_of_string digits with
  | Some d => Some (Z.of_N (N.of_uint d))
  | None => None
  end.

(** The decimal numeral of a non-negative integer. *)
Definition decimal (n : Z) : string :=
  NilZero.string_of_uint (N.to_uint (Z.to_N n)).

(** The two ways a round of the parsing loop leaves the state. *)
Definition push_prize (st : parse_state) (p : prize) : parse_state :=
  {| totalWeight := JS.add (totalWeight st) (weight p);
     prizes := prizes st ++ [p];
     isValid := isValid st |}.

Definition break_invalid (st : parse_state) : parse_state :=
  {| totalWeight := totalWeight st; prizes := prizes st; isValid := false |}.

(** The weights added one after the other, in double arithmetic, onto
    [c]: what both loops compute. *)
Definition accumulate (c : JS.number) (ps : list prize) : JS.number :=
  fold_left (fun acc p => JS.add acc (weight p)) ps c.

Definition total_of (ps : list prize) : JS.number :=
  accumulate (JS.Num 0) ps.

(** The cumulative weight after the first [i] entries, as the selection
    loop computes it: C_0 = 0 and C_(i+1) = C_i + weight of entry [i]
    (entries counted from 0). *)
Definition cumulative (ps : list prize) (i : nat) : JS.number :=
  total_of (firstn i ps).

(** The integer a weight holds, and the exact sums of these integers. *)
Definition weight_int (p : prize) : Z :=
  match weight p with
  | JS.Num z => z
  | _ => 0
  end.

Definition sum_weights (ps : list prize) : Z :=
  fold_right (fun p acc => weight_int p + acc) 0 ps.

Definition partial_sum (ps : list prize) (i : nat) : Z :=
  sum_weights (firstn i ps).

(** A weight the parsing loop lets through: positive and finite. *)
Definition finite_weight (p : prize) : Prop :=
  weight p = JS.Num (weight_int p) /\ 0 < weight_int p.

(** A positive number: a positive double holding an integer, or
    [Infinity]. *)
Definition positive_number (w : JS.number) : Prop :=
  w = JS.Infinity \/ exists z, w = JS.Num z /\ 0 < z /\ JS.round53 z = z.

(** [a <= b] on numbers that are not [NaN]. *)
Definition num_le (a b : JS.number) : Prop :=
  match a, b with
  | JS.NaN, _ | _, JS.NaN => False
  | JS.NegInfinity, _ => True
  | _, JS.Infinity => True
  | JS.Num x, JS.Num y => x <= y
  | _, _ => False
  end.

(** A double in [0, 1), in units of 2^-1074: a significand below 2^53
    times a power of two from 2^-1074 to 2^-53. *)
Definition is_draw (random : Z) : Prop :=
  exists m j, random = m * 2 ^ j /\ 0 <= m < 2 ^ 53 /\ 0 <= j <= 1021.

(** The fraction [m / 2^k] in units of 2^-1074. *)
Definition dyadic (m k : Z) : Z := m * 2 ^ (1074 - k).

(** The position at which the selection loop stops. *)
Fixpoint select_index (winningNumber : JS.scaled) (ps : list prize)
    (cumulativeWeight : JS.number) : option nat :=
  match ps with
  | [] => None
  | p :: rest =>
      if JS.ltb winningNumber (JS.add cumulativeWeight (weight p)) then Some O
      else option_map S
             (select_index winningNumber rest
                (JS.add cumulativeWeight (weight p)))
  end.

(** Following the specification's words, for comparison with the code:
    a split "on the first [_]" cuts a segment once, at its first [_],
    into what precedes it and what follows it; a segment without [_]
    does not split. *)
Fixpoint split_first (sep : ascii) (s : string) : option (string * string) :=
  match s with
  | EmptyString => None
  | String c rest =>
      if Ascii.eqb c sep then Some (EmptyString, rest)
      else match split_first sep rest with
           | Some (before, after) => Some (String c before, after)
           | None => None
           end
  end.

(** The pieces put back together with the separator between them. *)
Fixpoint join (sep : ascii) (pieces : list string) : string :=
  match pieces with
  | [] => EmptyString
  | [piece] => piece
  | piece :: rest => (piece ++ String sep (join sep rest))%string
  end.

(** The three entries of the specification's examples. *)
Definition abc : list prize :=
  [ {| name := "a"; weight := JS.Num 50 |};
    {| name := "b"; weight := JS.Num 30 |};
    {| name := "c"; weight := JS.Num 20 |} ].

(** The URL shape the handler documents, [/item1_P1/item2_P2/...]: every
    segment preceded by a [/]. *)
Definition url_of_segments (segments : list string) : string :=
  fold_right (fun segment rest => String "/" (segment ++ rest)%string)
             EmptyString segments.

(** A request whose only weight has 310 digits: 10^309, which is above
    every finite double. *)
Definition huge_weight_url : string :=
  "/a_1000000000000000000000000000000000000000000000000000000000000000000000000000000000000000000000000000000000000000000000000000000000000000000000000000000000000000000000000000000000000000000000000000000000000000000000000000000000000000000000000000000000000000000000000000000000000000000000000000000000000000000000".

(** ** Rounding to 53 bits *)

Lemma pow2_pos (e : Z) : 0 <= e -> 0 < 2 ^ e.
Proof. intros H. apply Z.pow_pos_nonneg; lia. Qed.

Lemma pow2_53 : 2 ^ 53 = 9007199254740992.
Proof. reflexivity. Qed.

Lemma pow2_52 : 2 ^ 52 = 4503599627370496.
Proof. reflexivity. Qed.

Lemma round53_small (n : Z) : n <= 2 ^ 53 -> JS.round53 n = n.
Proof.
  intros H. unfold JS.round53.
  destruct (Z.log2 n - 52 <=? 0) eqn:E; [reflexivity|].
  apply Z.leb_gt in E.
  assert (Hn : 0 < n).
  { destruct (Z.lt_ge_cases 0 n) as [Hp|Hp]; [exact Hp|].
    rewrite (Z.log2_nonpos n Hp) in E. lia. }
  assert (Hlog : 53 <= Z.log2 n) by lia.
  apply (Z.log2_le_pow2 n 53 Hn) in Hlog.
  assert (n = 2 ^ 53) as -> by lia.
  reflexivity.
Qed.

(** Above 2^53: the two multiples of [2^e] around [n], and which of
    them the rounding takes. *)
Lemma round53_large (n : Z) :
  2 ^ 53 <= n ->
  let e := Z.log2 n - 52 in
  let P := 2 ^ e in
  let q := n / P in
  let r := n mod P in
  1 <= e /\ 2 <= P /\ n = q * P + r /\ 0 <= r < P /\
  2 ^ 52 <= q < 2 ^ 53 /\
  ((JS.round53 n = q * P /\ 2 * r <= P /\ (2 * r = P -> Z.even q = true)) \/
   (JS.round53 n = (q + 1) * P /\ P <= 2 * r /\ (2 * r = P -> Z.even q = false))).
Proof.
  intros Hn e P q r.
  assert (Hpos : 0 < n) by (rewrite pow2_53 in Hn; lia).
  assert (He : 1 <= e).
  { unfold e. apply (Z.log2_le_pow2 n 53 Hpos) in Hn. lia. }
  assert (HP : 0 < P) by (apply pow2_pos; lia).
  assert (Hhalf : P = 2 * 2 ^ (e - 1)).
  { unfold P. replace e with (1 + (e - 1)) at 1 by lia.
    rewrite Z.pow_add_r by lia. reflexivity. }
  assert (Hh : 0 < 2 ^ (e - 1)) by (apply pow2_pos; lia).
  destruct (Z.log2_spec n Hpos) as [Hlo Hhi].
  assert (Elo : 2 ^ Z.log2 n = 2 ^ 52 * P).
  { unfold P. rewrite <- Z.pow_add_r by lia. f_equal. unfold e. lia. }
  assert (Ehi : 2 ^ Z.succ (Z.log2 n) = 2 ^ 53 * P).
  { unfold P. rewrite <- Z.pow_add_r by lia. f_equal. unfold e. lia. }
  rewrite Elo in Hlo. rewrite Ehi in Hhi.
  assert (Hdiv : n = q * P + r).
  { unfold q, r. rewrite Z.mul_comm. apply Z.div_mod. lia. }
  assert (Hr : 0 <= r < P) by (unfold r; apply Z.mod_pos_bound; exact HP).
  assert (Hq : 2 ^ 52 <= q < 2 ^ 53).
  { rewrite pow2_52, pow2_53 in *. split; nia. }
  repeat split; try lia.
  unfold JS.round53. fold e.
  destruct (e <=? 0) eqn:E; [apply Z.leb_le in E; lia|].
  fold P. fold q. fold r.
  destruct (r <? 2 ^ (e - 1)) eqn:E1.
  - apply Z.ltb_lt in E1. left. repeat split; lia.
  - apply Z.ltb_ge in E1. destruct (2 ^ (e - 1) <? r) eqn:E2.
    + apply Z.ltb_lt in E2. right. repeat split; lia.
    + apply Z.ltb_ge in E2. destruct (Z.even q) eqn:E3.
      * left. repeat split; lia.
      * right. repeat split; lia.
Qed.

Lemma round53_nonneg (n : Z) : 0 <= n -> 0 <= JS.round53 n.
Proof.
  intros H. destruct (Z.le_gt_cases n (2 ^ 53)) as [Hs|Hl].
  - now rewrite round53_small.
  - destruct (round53_large n) as (_ & HP & _ & _ & Hq & [(-> & _)|(-> & _)]);
      [lia| |]; rewrite pow2_52 in Hq; nia.
Qed.

Lemma round53_pos (n : Z) : 0 < n -> 0 < JS.round53 n.
Proof.
  intros H. destruct (Z.le_gt_cases n (2 ^ 53)) as [Hs|Hl].
  - now rewrite round53_small.
  - destruct (round53_large n) as (_ & HP & _ & _ & Hq & [(-> & _)|(-> & _)]);
      [lia| |]; rewrite pow2_52 in Hq; nia.
Qed.

(** The rounding moves [n] by at most [n / 2^53]. *)
Lemma round53_error (n : Z) :
  0 <= n -> 2 ^ 53 * (JS.round53 n - n) <= n /\ 2 ^ 53 * (n - JS.round53 n) <= n.
Proof.
  intros H. destruct (Z.le_gt_cases n (2 ^ 53)) as [Hs|Hl].
  - rewrite round53_small by exact Hs. lia.
  - destruct (round53_large n)
      as (_ & HP & Hn & Hr & Hq & [(-> & Hh & _)|(-> & Hh & _)]);
      [lia| |]; rewrite pow2_52 in Hq; rewrite pow2_53; nia.
Qed.

(** The rounding is monotone. *)
Lemma round53_mono (a b : Z) :
  0 <= a -> a <= b -> JS.round53 a <= JS.round53 b.
Proof.
  intros Ha Hab.
  destruct (Z.le_gt_cases b (2 ^ 53)) as [Hb|Hb].
  { rewrite !round53_small by lia. exact Hab. }
  destruct (round53_large b) as (Heb & HPb & Hnb & Hrb & Hqb & Hcb); [lia|].
  destruct (Z.le_gt_cases a (2 ^ 53)) as [Hs|Hl].
  { rewrite (round53_small a Hs).
    rewrite pow2_52, pow2_53 in *.
    destruct Hcb as [(-> & _)|(-> & _)]; nia. }
  destruct (round53_large a) as (Hea & HPa & Hna & Hra & Hqa & Hca); [lia|].
  assert (Hlog : Z.log2 a <= Z.log2 b) by (apply Z.log2_le_mono; exact Hab).
  set (ea := Z.log2 a - 52) in *. set (eb := Z.log2 b - 52) in *.
  set (Pa := 2 ^ ea) in *. set (Pb := 2 ^ eb) in *.
  set (qa := a / Pa) in *. set (qb := b / Pb) in *.
  set (ra := a mod Pa) in *. set (rb := b mod Pb) in *.
  rewrite pow2_52, pow2_53 in *.
  destruct (Z.eq_dec ea eb) as [Ee|Ne].
  - assert (EP : Pa = Pb) by (unfold Pa, Pb; now rewrite Ee).
    rewrite EP in *.
    assert (Hq : qa <= qb) by nia.
    destruct (Z.eq_dec qa qb) as [Eq|Nq].
    + rewrite Eq in *. assert (Hr : ra <= rb) by nia.
      destruct Hca as [(-> & Hha & Hta)|(-> & Hha & Hta)];
        destruct Hcb as [(-> & Hhb & Htb)|(-> & Hhb & Htb)]; try nia.
      assert (E1 : 2 * ra = Pb) by lia. assert (E2 : 2 * rb = Pb) by lia.
      specialize (Hta E1). specialize (Htb E2). congruence.
    + assert (Hlt : qa + 1 <= qb) by lia.
      destruct Hca as [(-> & _)|(-> & _)];
        destruct Hcb as [(-> & _)|(-> & _)]; nia.
  - assert (Hlt : ea + 1 <= eb) by (unfold ea, eb in *; lia).
    assert (HP : 2 * Pa <= Pb).
    { unfold Pa, Pb. replace eb with ((ea + 1) + (eb - (ea + 1))) by lia.
      rewrite Z.pow_add_r by lia. rewrite Z.pow_add_r by lia.
      assert (0 < 2 ^ (eb - (ea + 1))) by (apply pow2_pos; lia).
      assert (0 < 2 ^ ea) by (apply pow2_pos; lia).
      change (2 ^ 1) with 2. nia. }
    destruct Hca as [(-> & _)|(-> & _)];
      destruct Hcb as [(-> & _)|(-> & _)]; nia.
Qed.

(** A 53-bit integer times a power of two is kept. *)
Lemma round53_fixed (c k : Z) :
  0 <= c <= 2 ^ 53 -> 0 <= k -> JS.round53 (c * 2 ^ k) = c * 2 ^ k.
Proof.
  assert (Hmain : forall c k, 0 < c < 2 ^ 53 -> 0 <= k ->
                  JS.round53 (c * 2 ^ k) = c * 2 ^ k).
  { clear c k. intros c k Hc Hk.
    assert (HK : 0 < 2 ^ k) by (apply pow2_pos; exact Hk).
    destruct (Z.le_gt_cases (c * 2 ^ k) (2 ^ 53)) as [Hs|Hl].
    { now apply round53_small. }
    destruct (round53_large (c * 2 ^ k)) as (He & HP & Hn & Hr & Hq & Hcase);
      [lia|].
    set (n := c * 2 ^ k) in *. set (e := Z.log2 n - 52) in *.
    assert (Hpos : 0 < n) by (unfold n; nia).
    assert (Hlt : n < 2 ^ (53 + k)).
    { rewrite Z.pow_add_r by lia. unfold n. nia. }
    apply (Z.log2_lt_pow2 n (53 + k) Hpos) in Hlt.
    assert (Hek : e <= k) by (unfold e; lia).
    assert (Hmod : n mod 2 ^ e = 0).
    { apply Z.mod_divide; [lia|]. exists (c * 2 ^ (k - e)).
      unfold n. rewrite <- Z.mul_assoc, <- Z.pow_add_r by lia.
      do 2 f_equal. lia. }
    rewrite Hmod in *.
    destruct Hcase as [(-> & _)|(_ & Hbad & _)]; lia. }
  intros Hc Hk.
  destruct (Z.eq_dec c 0) as [->|Hc0]; [reflexivity|].
  destruct (Z.eq_dec c (2 ^ 53)) as [->|Hc1].
  - rewrite <- Z.pow_add_r by lia.
    rewrite <- (Z.mul_1_l (2 ^ (53 + k))). apply Hmain; [|lia].
    rewrite pow2_53. lia.
  - apply Hmain; lia.
Qed.

(** What the rounding gives is kept by the rounding. *)
Lemma round53_idem (n : Z) :
  0 <= n -> JS.round53 (JS.round53 n) = JS.round53 n.
Proof.
  intros H. destruct (Z.le_gt_cases n (2 ^ 53)) as [Hs|Hl].
  - now rewrite !(round53_small n Hs).
  - destruct (round53_large n) as (He & _ & _ & _ & Hq & [(-> & _)|(-> & _)]);
      [lia| |]; apply round53_fixed; lia.
Qed.

(** The rounding is monotone on all integers. *)
Lemma round53_mono_all (a b : Z) : a <= b -> JS.round53 a <= JS.round53 b.
Proof.
  intros Hab. destruct (Z.le_gt_cases 0 a) as [Ha|Ha].
  - now apply round53_mono.
  - rewrite (round53_small a) by (rewrite pow2_53; lia).
    destruct (Z.le_gt_cases 0 b) as [Hb|Hb].
    + pose proof (round53_nonneg b Hb). lia.
    + rewrite (round53_small b) by (rewrite pow2_53; lia). exact Hab.
Qed.

(** What the rounding gives is a double: a significand below 2^53
    times a power of two. *)
Lemma round53_double (n : Z) :
  0 <= n ->
  exists m j, JS.round53 n = m * 2 ^ j /\ 0 <= m < 2 ^ 53 /\ 0 <= j.
Proof.
  intros H. destruct (Z.le_gt_cases n (2 ^ 53)) as [Hs|Hl].
  - rewrite (round53_small n Hs).
    destruct (Z.eq_dec n (2 ^ 53)) as [->|Hne].
    + exists (2 ^ 52), 1. repeat split; try lia; reflexivity.
    + exists n, 0. rewrite Z.pow_0_r, Z.mul_1_r. repeat split; lia.
  - destruct (round53_large n) as (He & HP & _ & _ & Hq & Hcase); [lia|].
    set (e := Z.log2 n - 52) in *. set (q := n / 2 ^ e) in *.
    destruct Hcase as [(-> & _)|(-> & _)].
    + exists q, e. repeat split; lia.
    + destruct (Z.eq_dec (q + 1) (2 ^ 53)) as [E|N].
      * exists (2 ^ 52), (e + 1). rewrite E.
        rewrite (Z.pow_add_r 2 e 1) by lia.
        change (2 ^ 1) with 2. rewrite pow2_52, pow2_53.
        repeat split; lia.
      * exists (q + 1), e. repeat split; lia.
Qed.

(** No double is nearer to [n] than the rounding of [n]. *)
Lemma round53_nearest (n m j : Z) :
  0 <= n -> 0 <= m < 2 ^ 53 -> 0 <= j ->
  Z.abs (JS.round53 n - n) <= Z.abs (m * 2 ^ j - n).
Proof.
  intros Hn Hm Hj. destruct (Z.le_gt_cases n (2 ^ 53)) as [Hs|Hl].
  { rewrite (round53_small n Hs). rewrite Z.sub_diag. apply Z.abs_nonneg. }
  destruct (round53_large n) as (He & HP & Hdiv & Hr & Hq & Hcase); [lia|].
  set (e := Z.log2 n - 52) in *. set (P := 2 ^ e) in *.
  set (q := n / P) in *. set (r := n mod P) in *.
  set (d := m * 2 ^ j).
  assert (Hout : d <= q * P \/ (q + 1) * P <= d).
  { destruct (Z.le_gt_cases e j) as [Hej|Hje].
    - assert (Ed : d = (m * 2 ^ (j - e)) * P).
      { unfold d, P. rewrite <- Z.mul_assoc, <- Z.pow_add_r by lia.
        do 2 f_equal. lia. }
      rewrite Ed. destruct (Z.le_gt_cases (m * 2 ^ (j - e)) q) as [H1|H1].
      + left. apply Z.mul_le_mono_nonneg_r; lia.
      + right. apply Z.mul_le_mono_nonneg_r; lia.
    - left.
      assert (H2 : 2 ^ j * 2 <= P).
      { unfold P. replace e with (j + 1 + (e - (j + 1))) by lia.
        rewrite Z.pow_add_r by lia. rewrite (Z.pow_add_r 2 j 1) by lia.
        change (2 ^ 1) with 2.
        assert (0 < 2 ^ (e - (j + 1))) by (apply pow2_pos; lia).
        assert (0 < 2 ^ j) by (apply pow2_pos; lia). nia. }
      assert (H3 : 0 < 2 ^ j) by (apply pow2_pos; lia).
      unfold d. rewrite pow2_52, pow2_53 in *. nia. }
  fold d. destruct Hcase as [(-> & Hh & _)|(-> & Hh & _)];
    destruct Hout as [Hd|Hd]; lia.
Qed.

(** ** Splitting *)

Section Split.

Variable sep : ascii.

Lemma split_not_nil (s : string) : JS.split sep s <> [].
Proof.
  destruct s as [|c s]; simpl; [discriminate|].
  destruct (Ascii.eqb c sep); [discriminate|].
  destruct (JS.split sep s); discriminate.
Qed.

Lemma split_cons (c : ascii) (s : string) :
  Ascii.eqb c sep = false ->
  exists piece pieces,
    JS.split sep s = piece :: pieces /\
    JS.split sep (String c s) = String c piece :: pieces.
Proof.
  intros Hc. simpl. rewrite Hc.
  destruct (JS.split sep s) as [|piece pieces] eqn:E.
  - exfalso. exact (split_not_nil s E).
  - exists piece, pieces. split; reflexivity.
Qed.

Lemma split_length (s : string) :
  List.length (JS.split sep s) = S (count_char sep s).
Proof.
  induction s as [|c s IH]; [reflexivity|].
  destruct (Ascii.eqb c sep) eqn:Hc.
  - simpl. rewrite Hc. simpl. now rewrite IH.
  - destruct (split_cons c s Hc) as (piece & pieces & E1 & E2).
    rewrite E2. simpl. rewrite Hc. rewrite E1 in IH. exact IH.
Qed.

Lemma split_pieces_free (s : string) :
  Forall (fun piece => occurs sep piece = false) (JS.split sep s).
Proof.
  induction s as [|c s IH].
  - constructor; [reflexivity|constructor].
  - destruct (Ascii.eqb c sep) eqn:Hc.
    + simpl. rewrite Hc. constructor; [reflexivity|exact IH].
    + destruct (split_cons c s Hc) as (piece & pieces & E1 & E2).
      rewrite E2. rewrite E1 in IH. inversion IH; subst.
      constructor; [|assumption]. simpl. rewrite Hc. assumption.
Qed.

(** The first piece is what precedes the first separator. *)
Lemma split_head (s : string) :
  exists rest,
    s = (JS.item (JS.split sep s) 0 ++ rest)%string /\
    occurs sep (JS.item (JS.split sep s) 0) = false /\
    (rest = EmptyString \/ exists tail, rest = String sep tail).
Proof.
  induction s as [|c s IH].
  - exists EmptyString. simpl. auto.
  - destruct (Ascii.eqb c sep) eqn:Hc.
    + exists (String c s). simpl. rewrite Hc. simpl.
      repeat split. right. exists s.
      apply Ascii.eqb_eq in Hc. now subst.
    + destruct (split_cons c s Hc) as (piece & pieces & E1 & E2).
      destruct IH as (rest & Hs & Hfree & Hrest).
      rewrite E1 in Hs, Hfree. unfold JS.item in Hs, Hfree. simpl in Hs, Hfree.
      exists rest. rewrite E2. unfold JS.item. simpl.
      rewrite Hc. repeat split; [now f_equal|assumption|assumption].
Qed.

(** A string without the separator is its own single piece. *)
Lemma split_free (s : string) :
  occurs sep s = false -> JS.split sep s = [s].
Proof.
  induction s as [|c s IH]; [reflexivity|].
  simpl. intros H. apply orb_false_iff in H. destruct H as [Hc Hs].
  rewrite Hc, (IH Hs). reflexivity.
Qed.

(** Two strings without the separator, joined by it, are the two
    pieces. *)
Lemma split_two (a b : string) :
  occurs sep a = false -> occurs sep b = false ->
  JS.split sep (a ++ String sep b) = [a; b].
Proof.
  intros Ha Hb. induction a as [|c a IH].
  - simpl. rewrite Ascii.eqb_refl, (split_free b Hb). reflexivity.
  - simpl in Ha. apply orb_false_iff in Ha. destruct Ha as [Hc Ha].
    simpl. rewrite Hc, (IH Ha). reflexivity.
Qed.

End Split.

(** ** parseInt *)

Lemma isDigit_range (c : ascii) :
  JS.isDigit c = true <-> (48 <= N_of_ascii c <= 57)%N.
Proof.
  unfold JS.isDigit. rewrite andb_true_iff, !N.leb_le. tauto.
Qed.

Lemma digitValue_range (c : ascii) :
  JS.isDigit c = true -> 0 <= JS.digitValue c <= 9.
Proof.
  intros H. apply isDigit_range in H. unfold JS.digitValue. lia.
Qed.

Lemma digit_not_white (c : ascii) :
  JS.isDigit c = true -> JS.isWhiteSpace c = false.
Proof.
  intros H. apply isDigit_range in H. unfold JS.isWhiteSpace.
  destruct (N_of_ascii c) as [|q]; [reflexivity|].
  do 8 (destruct q as [q|q|]; try reflexivity; try lia).
Qed.

Lemma digit_not_sign (c : ascii) :
  JS.isDigit c = true -> c <> "-"%char /\ c <> "+"%char.
Proof.
  intros H. split; intros ->; discriminate H.
Qed.

Lemma trimStart_white (ws s : string) :
  all_white ws = true -> JS.trimStart (ws ++ s) = JS.trimStart s.
Proof.
  induction ws as [|c ws IH]; simpl; [reflexivity|].
  intros H. apply andb_true_iff in H. destruct H as [Hc Hws].
  rewrite Hc. auto.
Qed.

Lemma trimStart_digit (c : ascii) (s : string) :
  JS.isDigit c = true -> JS.trimStart (String c s) = String c s.
Proof.
  intros H. simpl. now rewrite (digit_not_white c H).
Qed.

Lemma digitsPrefix_app (ds rest : string) :
  all_digits ds = true -> stops_digits rest = true ->
  JS.digitsPrefix (ds ++ rest) = ds.
Proof.
  intros Hds Hrest. induction ds as [|c ds IH]; simpl.
  - destruct rest as [|d rest]; [reflexivity|].
    simpl in Hrest. apply negb_true_iff in Hrest. simpl. now rewrite Hrest.
  - simpl in Hds. apply andb_true_iff in Hds. destruct Hds as [Hc Hds].
    rewrite Hc, (IH Hds). reflexivity.
Qed.

Lemma digitsPrefix_all_digits (s : string) :
  all_digits (JS.digitsPrefix s) = true.
Proof.
  induction s as [|c s IH]; simpl; [reflexivity|].
  destruct (JS.isDigit c) eqn:Hc; simpl; [now rewrite Hc|reflexivity].
Qed.

Lemma mathIntFrom_snoc (acc : Z) (ds : string) (c : ascii) :
  JS.mathIntFrom acc (ds ++ String c EmptyString)
  = 10 * JS.mathIntFrom acc ds + JS.digitValue c.
Proof.
  revert acc. induction ds as [|d ds IH]; intros acc; simpl; [reflexivity|].
  apply IH.
Qed.

Lemma mathIntFrom_nonneg (acc : Z) (ds : string) :
  all_digits ds = true -> 0 <= acc -> acc <= JS.mathIntFrom acc ds.
Proof.
  revert acc.
  induction ds as [|d ds IH]; intros acc Hds Hacc; cbn [JS.mathIntFrom]; [lia|].
  cbn [all_digits] in Hds. apply andb_true_iff in Hds. destruct Hds as [Hd Hds].
  pose proof (digitValue_range d Hd).
  specialize (IH (10 * acc + JS.digitValue d) Hds). lia.
Qed.

Lemma mathInt_nonneg (ds : string) :
  all_digits ds = true -> 0 <= JS.mathInt ds.
Proof.
  intros H. apply (mathIntFrom_nonneg 0 ds H). lia.
Qed.


(** ** Numbers *)

Lemma ofInt_not_NaN (z : Z) : JS.ofInt z <> JS.NaN.
Proof.
  unfold JS.ofInt. destruct (2 ^ 1024 <=? JS.round53 (Z.abs z));
    [destruct (z <? 0)|]; discriminate.
Qed.

Lemma pow2_1024_large : 2 ^ 53 < 2 ^ 1024.
Proof. reflexivity. Qed.

(** Up to 2^53 in magnitude an integer is its own double. *)
Lemma ofInt_small (z : Z) : Z.abs z <= 2 ^ 53 -> JS.ofInt z = JS.Num z.
Proof.
  intros H. unfold JS.ofInt. rewrite (round53_small _ H).
  pose proof pow2_1024_large as Hbig.
  destruct (2 ^ 1024 <=? Z.abs z) eqn:E; [apply Z.leb_le in E; lia|].
  f_equal. rewrite Z.mul_comm. apply Z.abs_sgn.
Qed.

Lemma ofInt_pos (z : Z) :
  0 < z ->
  (JS.ofInt z = JS.Infinity \/ JS.ofInt z = JS.Num (JS.round53 z)) /\
  positive_number (JS.ofInt z).
Proof.
  intros H. unfold JS.ofInt. rewrite (Z.abs_eq z) by lia.
  rewrite (Z.sgn_pos z H), Z.mul_1_l.
  destruct (2 ^ 1024 <=? JS.round53 z).
  - destruct (z <? 0) eqn:E; [apply Z.ltb_lt in E; lia|].
    split; [now left|now left].
  - split; [now right|]. right. exists (JS.round53 z).
    split; [reflexivity|split; [now apply round53_pos|apply round53_idem; lia]].
Qed.

Lemma ofInt_pos_cases (z : Z) :
  0 < z ->
  (JS.ofInt z = JS.Infinity /\ 2 ^ 1024 <= JS.round53 z) \/
  (JS.ofInt z = JS.Num (JS.round53 z) /\ JS.round53 z < 2 ^ 1024).
Proof.
  intros H. unfold JS.ofInt. rewrite (Z.abs_eq z) by lia.
  rewrite (Z.sgn_pos z H), Z.mul_1_l.
  destruct (2 ^ 1024 <=? JS.round53 z) eqn:E.
  - apply Z.leb_le in E. left. split; [|exact E].
    destruct (z <? 0) eqn:E'; [apply Z.ltb_lt in E'; lia|reflexivity].
  - apply Z.leb_gt in E. right. split; [reflexivity|exact E].
Qed.

Lemma ofInt_leZero (z : Z) : JS.leZero (JS.ofInt z) = (z <=? 0).
Proof.
  destruct (Z.lt_trichotomy z 0) as [H|[->|H]].
  - unfold JS.ofInt. rewrite (Z.sgn_neg z H).
    assert (E : (z <? 0) = true) by (apply Z.ltb_lt; exact H). rewrite E.
    assert (Hle : (z <=? 0) = true) by (apply Z.leb_le; lia). rewrite Hle.
    destruct (2 ^ 1024 <=? JS.round53 (Z.abs z)); [reflexivity|].
    cbn [JS.leZero]. apply Z.leb_le.
    pose proof (round53_nonneg (Z.abs z) (Z.abs_nonneg z)). lia.
  - reflexivity.
  - assert (Hle : (z <=? 0) = false) by (apply Z.leb_gt; exact H).
    rewrite Hle.
    destruct (ofInt_pos z H) as [[E|E] _]; rewrite E; cbn [JS.leZero];
      [reflexivity|].
    apply Z.leb_gt. now apply round53_pos.
Qed.

Lemma ofInt_isNaN (z : Z) : JS.isNaN (JS.ofInt z) = false.
Proof.
  pose proof (ofInt_not_NaN z). now destruct (JS.ofInt z).
Qed.

Lemma positive_number_checks (w : JS.number) :
  positive_number w <->
  JS.isNaN w = false /\ JS.leZero w = false /\
  (forall z, w = JS.Num z -> JS.round53 z = z).
Proof.
  split.
  - intros [->|(z & -> & Hz & Hr)]; repeat split; try discriminate.
    + simpl. now apply Z.leb_gt.
    + intros z' [= <-]. exact Hr.
  - intros (H1 & H2 & H3). destruct w as [|z| |]; try discriminate.
    + right. exists z. simpl in H2. apply Z.leb_gt in H2. auto.
    + now left.
Qed.

Lemma num_le_refl (w : JS.number) : w <> JS.NaN -> num_le w w.
Proof. destruct w; simpl; try tauto. lia. Qed.

Lemma num_le_trans (a b c : JS.number) :
  num_le a b -> num_le b c -> num_le a c.
Proof. destruct a, b, c; simpl; try tauto. lia. Qed.

(** Adding a positive number to zero or to a positive number gives a
    positive number that is at least as large as both. *)
Lemma add_positive (c w : JS.number) :
  c = JS.Num 0 \/ positive_number c -> positive_number w ->
  positive_number (JS.add c w) /\
  num_le c (JS.add c w) /\ num_le w (JS.add c w).
Proof.
  intros Hc Hw.
  assert (Hc' : c = JS.Infinity \/
                exists x, c = JS.Num x /\ 0 <= x /\ JS.round53 x = x).
  { destruct Hc as [->|[->|(x & -> & Hx & Hr)]].
    - right. exists 0. split; [reflexivity|split; [lia|reflexivity]].
    - now left.
    - right. exists x. split; [reflexivity|split; [lia|exact Hr]]. }
  clear Hc. destruct Hc' as [->|(x & -> & Hx & Hrx)].
  - destruct Hw as [->|(z & -> & Hz & Hr)]; simpl; (split; [now left|tauto]).
  - destruct Hw as [->|(z & -> & Hz & Hrz)]; simpl.
    + split; [now left|tauto].
    + assert (Hsum : 0 < x + z) by lia.
      destruct (ofInt_pos (x + z) Hsum) as [[E|E] Hp]; rewrite E in *.
      * split; [exact Hp|tauto].
      * split; [exact Hp|]. simpl. split.
        -- rewrite <- Hrx at 1. apply round53_mono; lia.
        -- rewrite <- Hrz at 1. apply round53_mono; lia.
Qed.

(** Integers whose sum stays within 2^53 are added exactly. *)
Lemma add_exact (x y : Z) :
  Z.abs (x + y) <= 2 ^ 53 -> JS.add (JS.Num x) (JS.Num y) = JS.Num (x + y).
Proof. intros H. simpl. now apply ofInt_small. Qed.

Lemma unit_split : JS.unit = 2 ^ 53 * 2 ^ 1021.
Proof. reflexivity. Qed.

Lemma unit_pos : 0 < JS.unit.
Proof. reflexivity. Qed.

Lemma is_draw_bound (random : Z) :
  is_draw random -> 0 <= random <= (2 ^ 53 - 1) * 2 ^ 1021.
Proof.
  intros (m & j & -> & Hm & Hj).
  assert (H0 : 0 < 2 ^ j) by (apply pow2_pos; lia).
  assert (H1 : 2 ^ j <= 2 ^ 1021) by (apply Z.pow_le_mono_r; lia).
  split; [nia|]. apply Z.mul_le_mono_nonneg; lia.
Qed.

Lemma is_draw_fixed (random : Z) :
  is_draw random -> JS.round53 random = random.
Proof.
  intros (m & j & -> & Hm & Hj). apply round53_fixed; lia.
Qed.

(** A draw below 1 times a positive total stays below the total, also
    after rounding. *)
Lemma product_below_total (random t : Z) :
  is_draw random -> 0 < t ->
  0 <= JS.round53 (random * t) < t * JS.unit.
Proof.
  intros Hd Ht. destruct (is_draw_bound random Hd) as [H0 H1].
  assert (Hprod : 0 <= random * t) by nia.
  split; [now apply round53_nonneg|].
  destruct (round53_error (random * t) Hprod) as [Herr _].
  rewrite unit_split. set (Q := 2 ^ 1021) in *.
  assert (HQ : 0 < Q) by reflexivity.
  set (R := JS.round53 (random * t)) in *.
  rewrite pow2_53 in *.
  assert (H2 : random * t <= (9007199254740992 - 1) * Q * t)
    by (apply Z.mul_le_mono_nonneg_r; lia).
  assert (H3 : 0 < Q * t) by nia.
  assert (H4 : 9007199254740992 * R <= (9007199254740992 + 1) * (random * t))
    by lia.
  assert (H5 : 9007199254740992 * R
               <= (9007199254740992 + 1) * ((9007199254740992 - 1) * Q * t))
    by nia.
  assert (H6 : 9007199254740992 * R < 9007199254740992 * (9007199254740992 * (Q * t)))
    by nia.
  assert (H7 : R < 9007199254740992 * (Q * t)) by (apply Z.mul_lt_mono_pos_l in H6; lia).
  nia.
Qed.

Lemma mulRandom_num (random t : Z) :
  0 <= t -> JS.mulRandom random (JS.Num t) = JS.SNum (JS.round53 (random * t)).
Proof.
  intros Ht. unfold JS.mulRandom. rewrite (Z.abs_eq t Ht).
  destruct (Z.eq_dec t 0) as [->|Hne].
  - rewrite Z.mul_0_r. reflexivity.
  - rewrite (Z.sgn_pos t) by lia. now rewrite Z.mul_1_l.
Qed.

(** ** parseInt on strings *)

Lemma append_empty_r (s : string) : (s ++ EmptyString)%string = s.
Proof. induction s as [|c s IH]; simpl; [reflexivity|now rewrite IH]. Qed.

Lemma append_assoc (a b c : string) :
  ((a ++ b) ++ c)%string = (a ++ (b ++ c))%string.
Proof. induction a as [|d a IH]; simpl; [reflexivity|now rewrite IH]. Qed.

(** Digits with nothing before them: the double for their value,
    whatever follows. *)
Lemma parseInt_digits (ds rest : string) :
  ds <> EmptyString -> all_digits ds = true -> stops_digits rest = true ->
  JS.parseInt (ds ++ rest) = JS.ofInt (JS.mathInt ds).
Proof.
  intros Hne Hds Hrest.
  destruct ds as [|c ds]; [congruence|].
  pose proof Hds as Hds'. simpl in Hds'. apply andb_true_iff in Hds'.
  destruct Hds' as [Hc _].
  destruct (digit_not_sign c Hc) as [Hminus Hplus].
  unfold JS.parseInt.
  change (String c ds ++ rest)%string with (String c (ds ++ rest)%string).
  rewrite (trimStart_digit c _ Hc).
  assert (Hsign : match String c (ds ++ rest) with
                  | String "-" _ => -1 | _ => 1 end = 1).
  { destruct c as [[] [] [] [] [] [] [] []]; try reflexivity; congruence. }
  assert (Hbody : match String c (ds ++ rest) with
                  | String "-" r => r | String "+" r => r
                  | _ => String c (ds ++ rest) end = String c (ds ++ rest)).
  { destruct c as [[] [] [] [] [] [] [] []]; try reflexivity; congruence. }
  rewrite Hsign, Hbody.
  change (String c (ds ++ rest)%string) with (String c ds ++ rest)%string.
  rewrite (digitsPrefix_app _ _ Hds Hrest).
  now rewrite Z.mul_1_l.
Qed.

Lemma parseInt_plus_digits (ds rest : string) :
  ds <> EmptyString -> all_digits ds = true -> stops_digits rest = true ->
  JS.parseInt (String "+" (ds ++ rest)) = JS.ofInt (JS.mathInt ds).
Proof.
  intros Hne Hds Hrest. unfold JS.parseInt. simpl JS.trimStart. cbv iota.
  rewrite (digitsPrefix_app _ _ Hds Hrest).
  destruct ds; [congruence|]. now rewrite Z.mul_1_l.
Qed.

Lemma parseInt_minus_digits (ds rest : string) :
  ds <> EmptyString -> all_digits ds = true -> stops_digits rest = true ->
  JS.parseInt (String "-" (ds ++ rest)) = JS.ofInt (- JS.mathInt ds).
Proof.
  intros Hne Hds Hrest. unfold JS.parseInt. simpl JS.trimStart. cbv iota.
  rewrite (digitsPrefix_app _ _ Hds Hrest).
  destruct ds as [|c ds]; [congruence|].
  f_equal; lia.
Qed.

Lemma parseInt_white (ws s : string) :
  all_white ws = true -> JS.parseInt (ws ++ s) = JS.parseInt s.
Proof.
  intros H. unfold JS.parseInt. now rewrite (trimStart_white ws s H).
Qed.

Lemma trimStart_decompose (s : string) :
  exists ws, s = (ws ++ JS.trimStart s)%string /\ all_white ws = true.
Proof.
  induction s as [|c s (ws & E & Hws)].
  - exists EmptyString. split; reflexivity.
  - simpl. destruct (JS.isWhiteSpace c) eqn:Hc.
    + exists (String c ws). simpl. rewrite Hc, Hws. split; [now f_equal|reflexivity].
    + exists EmptyString. split; reflexivity.
Qed.

Lemma digitsPrefix_decompose (s : string) :
  exists rest,
    s = (JS.digitsPrefix s ++ rest)%string /\ stops_digits rest = true.
Proof.
  induction s as [|c s (rest & E & Hrest)].
  - exists EmptyString. split; reflexivity.
  - simpl. destruct (JS.isDigit c) eqn:Hc.
    + exists rest. split; [simpl; now f_equal|exact Hrest].
    + exists (String c s). split; [reflexivity|]. simpl. now rewrite Hc.
Qed.

(** [parseInt] gives a number only on a string of the shape it reads. *)
Lemma parseInt_shape (s : string) :
  JS.parseInt s <> JS.NaN ->
  exists ws sign ds rest,
    s = (ws ++ sign ++ ds ++ rest)%string /\
    all_white ws = true /\
    (sign = EmptyString \/ sign = "+" \/ sign = "-") /\
    ds <> EmptyString /\ all_digits ds = true /\ stops_digits rest = true /\
    JS.parseInt s = JS.ofInt (sign_factor sign * JS.mathInt ds).
Proof.
  intros H. destruct (trimStart_decompose s) as (ws & Es & Hws).
  unfold JS.parseInt in *. cbv zeta in *.
  destruct (JS.trimStart s) as [|c t] eqn:Et; [now contradiction H|].
  assert (Hfinish : forall (sign unsigned : string) (f : Z),
    String c t = (sign ++ unsigned)%string ->
    (sign = EmptyString \/ sign = "+" \/ sign = "-") ->
    f = sign_factor sign ->
    match JS.digitsPrefix unsigned with
    | EmptyString => JS.NaN
    | String d ds => JS.ofInt (f * JS.mathInt (String d ds))
    end <> JS.NaN ->
    exists ws sign ds rest,
      s = (ws ++ sign ++ ds ++ rest)%string /\
      all_white ws = true /\
      (sign = EmptyString \/ sign = "+" \/ sign = "-") /\
      ds <> EmptyString /\ all_digits ds = true /\ stops_digits rest = true /\
      match JS.digitsPrefix unsigned with
      | EmptyString => JS.NaN
      | String d ds => JS.ofInt (f * JS.mathInt (String d ds))
      end = JS.ofInt (sign_factor sign * JS.mathInt ds)).
  { intros sign unsigned f Hcut Hsign -> Hv.
    destruct (digitsPrefix_decompose unsigned) as (rest & Eu & Hrest).
    pose proof (digitsPrefix_all_digits unsigned) as Hds.
    destruct (JS.digitsPrefix unsigned) as [|d ds]; [now contradiction Hv|].
    exists ws, sign, (String d ds), rest.
    split; [rewrite Es, Hcut, Eu; reflexivity|].
    repeat split; try assumption; discriminate. }
  destruct (ascii_dec c "-") as [->|Hminus].
  { apply (Hfinish "-" t (-1)); auto. }
  destruct (ascii_dec c "+") as [->|Hplus].
  { apply (Hfinish "+" t 1); auto. }
  assert (Hsign : match String c t with
                  | String "-" _ => -1 | _ => 1 end = 1).
  { destruct c as [[] [] [] [] [] [] [] []]; try reflexivity; congruence. }
  assert (Hbody : match String c t with
                  | String "-" u => u | String "+" u => u
                  | _ => String c t end = String c t).
  { destruct c as [[] [] [] [] [] [] [] []]; try reflexivity; congruence. }
  rewrite Hsign, Hbody in *.
  apply (Hfinish EmptyString (String c t) 1); auto.
Qed.

(** ** Decimal numerals *)

Lemma uint_string_digits (d : Decimal.uint) :
  all_digits (NilEmpty.string_of_uint d) = true.
Proof. induction d; simpl; auto. Qed.

Lemma mathIntFrom_uint_acc (d : Decimal.uint) (acc : positive) :
  JS.mathIntFrom (Z.pos acc) (NilEmpty.string_of_uint d)
  = Z.pos (Pos.of_uint_acc d acc).
Proof.
  revert acc. induction d as [|d IH|d IH|d IH|d IH|d IH|d IH|d IH|d IH|d IH|d IH];
    intros acc; [reflexivity|..];
    cbn [NilEmpty.string_of_uint JS.mathIntFrom Pos.of_uint_acc];
    rewrite <- IH; f_equal;
    rewrite ?Pos2Z.inj_add, ?Pos2Z.inj_mul;
    match goal with
    | |- context [JS.digitValue ?c] =>
        let v := eval vm_compute in (JS.digitValue c) in
        change (JS.digitValue c) with v
    end;
    lia.
Qed.

Lemma mathIntFrom_uint (d : Decimal.uint) :
  JS.mathIntFrom 0 (NilEmpty.string_of_uint d) = Z.of_N (Pos.of_uint d).
Proof.
  induction d as [|d IH|d IH|d IH|d IH|d IH|d IH|d IH|d IH|d IH|d IH];
    [reflexivity|exact IH|..];
    cbn [NilEmpty.string_of_uint JS.mathIntFrom Pos.of_uint];
    apply (mathIntFrom_uint_acc d).
Qed.

(** A string the standard library reads as a decimal numeral is made
    of digits, and its value is the integer [parseInt] computes from
    it. *)
Lemma decimal_value_mathInt (ds : string) (v : Z) :
  decimal_value ds = Some v ->
  all_digits ds = true /\ JS.mathInt ds = v.
Proof.
  unfold decimal_value.
  destruct (NilEmpty.uint_of_string ds) as [d|] eqn:E; [|discriminate].
  intros [= <-]. apply NilEmpty.sus in E. subst ds.
  split; [apply uint_string_digits|apply mathIntFrom_uint].
Qed.

Lemma all_digits_decimal_value (ds : string) :
  all_digits ds = true -> decimal_value ds = Some (JS.mathInt ds).
Proof.
  intros H.
  assert (Hd : exists d, NilEmpty.uint_of_string ds = Some d).
  { induction ds as [|c ds IH]; [now exists Decimal.Nil|].
    simpl in H. apply andb_true_iff in H. destruct H as [Hc Hds].
    destruct (IH Hds) as (d & Hd). simpl. rewrite Hd.
    apply isDigit_range in Hc. unfold uint_of_char.
    destruct c as [[] [] [] [] [] [] [] []]; simpl in Hc; try lia; eauto. }
  destruct Hd as (d & Hd).
  pose proof Hd as Hd'. apply NilEmpty.sus in Hd'.
  unfold decimal_value. rewrite Hd. f_equal. subst ds.
  symmetry. apply mathIntFrom_uint.
Qed.

Lemma decimal_spec (n : Z) :
  0 <= n ->
  decimal n <> EmptyString /\ decimal_value (decimal n) = Some n.
Proof.
  intros H. unfold decimal.
  assert (Hnil : N.to_uint (Z.to_N n) <> Decimal.Nil).
  { destruct (Z.to_N n) as [|p]; [discriminate|].
    apply DecimalPos.Unsigned.to_uint_nonnil. }
  assert (E : NilZero.string_of_uint (N.to_uint (Z.to_N n))
              = NilEmpty.string_of_uint (N.to_uint (Z.to_N n))).
  { unfold NilZero.string_of_uint.
    destruct (N.to_uint (Z.to_N n)); (reflexivity || congruence). }
  rewrite E. split.
  - destruct (N.to_uint (Z.to_N n)); (discriminate || congruence).
  - unfold decimal_value. rewrite NilEmpty.usu.
    rewrite DecimalN.Unsigned.of_to. f_equal. now apply Z2N.id.
Qed.

(** ** The parsing loop *)

Lemma parse_loop_accept (segment : string) (rest : list string)
    (st : parse_state) (p : prize) :
  entry_of segment = Some p ->
  parse_loop (segment :: rest) st = parse_loop rest (push_prize st p).
Proof.
  unfold entry_of, bad_weight. cbn [parse_loop].
  destruct (JS.split "_" segment) as [|a [|b [|c parts]]]; try discriminate.
  cbn [List.length Nat.eqb negb JS.item nth].
  destruct (JS.isNaN (JS.parseInt b) || JS.leZero (JS.parseInt b));
    [discriminate|].
  intros [= <-]. reflexivity.
Qed.

Lemma parse_loop_reject (segment : string) (rest : list string)
    (st : parse_state) :
  entry_of segment = None ->
  parse_loop (segment :: rest) st = break_invalid st.
Proof.
  unfold entry_of, bad_weight. cbn [parse_loop].
  destruct (JS.split "_" segment) as [|a [|b [|c parts]]]; try reflexivity.
  cbn [List.length Nat.eqb negb JS.item nth].
  destruct (JS.isNaN (JS.parseInt b) || JS.leZero (JS.parseInt b));
    [reflexivity|discriminate].
Qed.

Lemma accumulate_app (c : JS.number) (ps qs : list prize) :
  accumulate c (ps ++ qs) = accumulate (accumulate c ps) qs.
Proof. unfold accumulate. apply fold_left_app. Qed.

Lemma accumulate_cons (c : JS.number) (p : prize) (ps : list prize) :
  accumulate c (p :: ps) = accumulate (JS.add c (weight p)) ps.
Proof. reflexivity. Qed.

(** Every segment is accepted: the loop appends the entries in order and
    adds their weights up. *)
Lemma parse_loop_all (segments : list string) (ps : list prize)
    (st : parse_state) :
  Forall2 (fun segment p => entry_of segment = Some p) segments ps ->
  parse_loop segments st =
  {| totalWeight := accumulate (totalWeight st) ps;
     prizes := prizes st ++ ps;
     isValid := isValid st |}.
Proof.
  intros H. revert st. induction H as [|segment p segments ps Hp _ IH]; intros st.
  - simpl. rewrite app_nil_r. now destruct st.
  - rewrite (parse_loop_accept _ _ _ _ Hp), IH. unfold push_prize. simpl.
    now rewrite <- app_assoc.
Qed.

(** The loop stops at the first segment it does not accept, whatever
    comes after it. *)
Lemma parse_loop_first_bad (good : list string) (ps : list prize)
    (bad : string) (after : list string) (st : parse_state) :
  Forall2 (fun segment p => entry_of segment = Some p) good ps ->
  entry_of bad = None ->
  parse_loop (good ++ bad :: after)%list st =
  {| totalWeight := accumulate (totalWeight st) ps;
     prizes := prizes st ++ ps;
     isValid := false |}.
Proof.
  intros H Hbad. revert st. induction H as [|segment p good ps Hp _ IH]; intros st.
  - simpl app. rewrite (parse_loop_reject _ _ _ Hbad). unfold break_invalid.
    simpl. now rewrite app_nil_r.
  - simpl app. rewrite (parse_loop_accept _ _ _ _ Hp), IH. unfold push_prize.
    simpl. now rewrite <- app_assoc.
Qed.

(** A list of segments is either accepted whole or has a first segment
    that is not. *)
Lemma segments_split (segments : list string) :
  (exists ps, Forall2 (fun segment p => entry_of segment = Some p) segments ps)
  \/ (exists good ps bad after,
        segments = (good ++ bad :: after)%list /\
        Forall2 (fun segment p => entry_of segment = Some p) good ps /\
        entry_of bad = None).
Proof.
  induction segments as [|segment segments IH].
  - left. exists []. constructor.
  - destruct (entry_of segment) as [p|] eqn:Hp.
    + destruct IH as [(ps & H)|(good & ps & bad & after & E & H & Hbad)].
      * left. exists (p :: ps). now constructor.
      * right. exists (segment :: good), (p :: ps), bad, after.
        subst. repeat split; [now constructor|assumption].
    + right. exists [], [], segment, segments. repeat split; [constructor|assumption].
Qed.

Lemma parse_loop_isValid (segments : list string) (st : parse_state) :
  isValid (parse_loop segments st) = isValid st && forallb valid_segment segments.
Proof.
  revert st. induction segments as [|segment segments IH]; intros st.
  - simpl. now rewrite andb_true_r.
  - cbn [forallb]. unfold valid_segment at 1.
    destruct (entry_of segment) as [p|] eqn:Hp.
    + rewrite (parse_loop_accept _ _ _ _ Hp), IH. reflexivity.
    + rewrite (parse_loop_reject _ _ _ Hp). simpl. now rewrite andb_false_r.
Qed.

Lemma entries_forallb_valid (segments : list string) (ps : list prize) :
  Forall2 (fun segment p => entry_of segment = Some p) segments ps ->
  forallb valid_segment segments = true.
Proof.
  induction 1 as [|segment p segments ps Hp _ IH]; [reflexivity|].
  cbn [forallb]. unfold valid_segment at 1. now rewrite Hp, IH.
Qed.

Lemma Forall2_entries_unique (segments : list string) (ps qs : list prize) :
  Forall2 (fun segment p => entry_of segment = Some p) segments ps ->
  Forall2 (fun segment p => entry_of segment = Some p) segments qs ->
  ps = qs.
Proof.
  intros H. revert qs. induction H as [|s p ss ps Hp _ IH]; intros qs Hq;
    inversion Hq; subst; [reflexivity|].
  f_equal; [congruence|auto].
Qed.

(** The handler is [parseInput] followed by the selection. *)
Lemma handler_parseInput (url : string) (random : Z) :
  handler url random =
  match parseInput url with
  | inl NoPrizesProvided => no_prizes_response
  | inl InvalidFormat => invalid_format_response
  | inr (ps, total) =>
      {| status := 200;
         body := [("winner", json_of_winner (selectWinner ps total random))] |}
  end.
Proof.
  unfold handler, parseInput.
  destruct (Nat.eqb (List.length (segments_of (path_of url))) 0); [reflexivity|].
  destruct (negb (isValid (parse_loop (segments_of (path_of url)) parse_init)));
    reflexivity.
Qed.

(** [parseInput] succeeds exactly on a non-empty list of segments that
    are all accepted, with their entries in order and their weights
    added up in order. *)
Lemma parseInput_inr (url : string) (ps : list prize) (total : JS.number) :
  parseInput url = inr (ps, total) <->
  segments_of (path_of url) <> [] /\
  Forall2 (fun segment p => entry_of segment = Some p)
          (segments_of (path_of url)) ps /\
  total = total_of ps.
Proof.
  unfold parseInput. set (segments := segments_of (path_of url)).
  destruct segments as [|s0 segments'] eqn:E.
  - simpl. split; [discriminate|]. intros (H & _). congruence.
  - cbn [List.length Nat.eqb]. rewrite <- E.
    destruct (segments_split segments)
      as [(qs & H)|(good & qs & bad & after & Es & H & Hbad)].
    + rewrite (parse_loop_all _ _ _ H). simpl. split.
      * intros [= <- <-]. repeat split; [rewrite E; discriminate|assumption].
      * intros (_ & H' & ->).
        now rewrite (Forall2_entries_unique _ _ _ H H').
    + rewrite Es, (parse_loop_first_bad _ _ _ _ _ H Hbad). simpl.
      split; [discriminate|]. intros (_ & H' & _). exfalso.
      apply entries_forallb_valid in H'. rewrite forallb_app in H'.
      apply andb_true_iff in H'. destruct H' as [_ H']. cbn [forallb] in H'.
      unfold valid_segment in H' at 1. rewrite Hbad in H'. discriminate.
Qed.

Lemma parseInput_no_prizes (url : string) :
  parseInput url = inl NoPrizesProvided <-> segments_of (path_of url) = [].
Proof.
  unfold parseInput. destruct (segments_of (path_of url)) as [|s ss].
  - simpl. tauto.
  - cbn [List.length Nat.eqb]. split; [|discriminate].
    destruct (negb _); discriminate.
Qed.

Lemma parseInput_invalid (url : string) :
  parseInput url = inl InvalidFormat <->
  segments_of (path_of url) <> [] /\
  forallb valid_segment (segments_of (path_of url)) = false.
Proof.
  unfold parseInput. destruct (segments_of (path_of url)) as [|s ss] eqn:E.
  - simpl. split; [discriminate|]. intros (H & _). congruence.
  - cbn [List.length Nat.eqb]. rewrite parse_loop_isValid. simpl isValid.
    cbn [andb]. destruct (forallb valid_segment (s :: ss)); simpl.
    + split; [discriminate|]. intros (_ & H). discriminate.
    + split; [|reflexivity]. intros _. split; [discriminate|reflexivity].
Qed.

(** ** Segments, entries and responses *)

Lemma split_pieces_without (sep c : ascii) (s : string) :
  occurs c s = false ->
  Forall (fun piece => occurs c piece = false) (JS.split sep s).
Proof.
  induction s as [|d s IH]; intros H.
  - constructor; [reflexivity|constructor].
  - simpl in H. apply orb_false_iff in H. destruct H as [Hd Hs].
    specialize (IH Hs). destruct (Ascii.eqb d sep) eqn:Hsep.
    + simpl. rewrite Hsep. constructor; [reflexivity|exact IH].
    + destruct (split_cons sep d s Hsep) as (piece & pieces & E1 & E2).
      rewrite E2. rewrite E1 in IH. inversion IH; subst.
      constructor; [|assumption]. simpl. now rewrite Hd.
Qed.

Lemma keep_segment_iff (s : string) :
  keep_segment s = true <-> s <> EmptyString /\ s <> "api" /\ s <> "picker".
Proof.
  unfold keep_segment. rewrite !andb_true_iff, !negb_true_iff.
  rewrite !String.eqb_neq. split.
  - intros [[H1 H2] H3]. repeat split; try assumption.
    intros ->. discriminate H1.
  - intros (H1 & H2 & H3). repeat split; try assumption.
    destruct s; [congruence|reflexivity].
Qed.

Lemma path_of_no_query (url : string) : occurs "?" (path_of url) = false.
Proof.
  destruct (split_head "?" url) as (rest & _ & H & _). exact H.
Qed.

(** A segment is a non-empty piece of the path, is not a routing token
    and contains neither [/] nor [?]. *)
Lemma segments_of_path (url segment : string) :
  In segment (segments_of (path_of url)) ->
  In segment (JS.split "/" (path_of url)) /\
  segment <> EmptyString /\ segment <> "api" /\ segment <> "picker" /\
  occurs "/" segment = false /\ occurs "?" segment = false.
Proof.
  unfold segments_of. rewrite filter_In. intros [Hin Hkeep].
  apply keep_segment_iff in Hkeep. destruct Hkeep as (H1 & H2 & H3).
  repeat split; try assumption.
  - pose proof (split_pieces_free "/" (path_of url)) as H.
    rewrite Forall_forall in H. exact (H _ Hin).
  - pose proof (split_pieces_without "/" "?" _ (path_of_no_query url)) as H.
    rewrite Forall_forall in H. exact (H _ Hin).
Qed.

Lemma bad_weight_iff (weightString : string) :
  bad_weight weightString = true <->
  JS.parseInt weightString = JS.NaN \/
  JS.leZero (JS.parseInt weightString) = true.
Proof.
  unfold bad_weight. rewrite orb_true_iff.
  destruct (JS.parseInt weightString); simpl; intuition congruence.
Qed.

(** A weight-string that passes the check parses to a positive
    number. *)
Lemma good_weight_positive (weightString : string) :
  bad_weight weightString = false ->
  positive_number (JS.parseInt weightString).
Proof.
  unfold bad_weight. rewrite orb_false_iff. intros [Hnan Hle].
  assert (Hne : JS.parseInt weightString <> JS.NaN).
  { intros E. rewrite E in Hnan. discriminate. }
  destruct (parseInt_shape weightString Hne)
    as (ws & sign & ds & rest & _ & _ & _ & _ & _ & _ & E).
  rewrite E in *. rewrite ofInt_leZero in Hle. apply Z.leb_gt in Hle.
  apply ofInt_pos. exact Hle.
Qed.

Lemma entry_of_Some (segment : string) (p : prize) :
  entry_of segment = Some p <->
  exists weightString,
    JS.split "_" segment = [name p; weightString] /\
    JS.parseInt weightString = weight p /\
    bad_weight weightString = false.
Proof.
  unfold entry_of. split.
  - destruct (JS.split "_" segment) as [|a [|b [|c parts]]]; try discriminate.
    destruct (bad_weight b) eqn:Hb; [discriminate|].
    intros [= <-]. exists b. auto.
  - intros (ws & -> & E & ->). rewrite E. now destruct p.
Qed.

Lemma entry_of_positive (segment : string) (p : prize) :
  entry_of segment = Some p -> positive_number (weight p).
Proof.
  intros H. apply entry_of_Some in H. destruct H as (ws & _ & <- & Hb).
  now apply good_weight_positive.
Qed.

Lemma entry_of_None (segment : string) :
  entry_of segment = None <->
  List.length (JS.split "_" segment) <> 2%nat \/
  bad_weight (JS.item (JS.split "_" segment) 1) = true.
Proof.
  unfold entry_of.
  destruct (JS.split "_" segment) as [|a [|b [|c parts]]]; simpl;
    try (split; [intros _; left; discriminate|reflexivity]).
  unfold JS.item. simpl.
  destruct (bad_weight b); split; try discriminate; auto.
  intros [H|H]; [congruence|discriminate].
Qed.

Lemma forallb_valid_false (segments : list string) :
  forallb valid_segment segments = false <->
  Exists (fun segment => entry_of segment = None) segments.
Proof.
  induction segments as [|segment segments IH].
  - simpl. split; [discriminate|]. intros H. inversion H.
  - cbn [forallb]. rewrite andb_false_iff, IH. unfold valid_segment.
    split.
    + intros [H|H].
      * apply Exists_cons_hd. now destruct (entry_of segment).
      * now apply Exists_cons_tl.
    + intros H. inversion H; subst; [left|now right].
      now rewrite H1.
Qed.

Lemma handler_invalid_iff (url : string) (random : Z) :
  handler url random = invalid_format_response <->
  parseInput url = inl InvalidFormat.
Proof.
  rewrite handler_parseInput.
  destruct (parseInput url) as [[|]|[ps total]]; split;
    try reflexivity; try discriminate.
Qed.

Lemma handler_no_prizes_iff (url : string) (random : Z) :
  handler url random = no_prizes_response <->
  parseInput url = inl NoPrizesProvided.
Proof.
  rewrite handler_parseInput.
  destruct (parseInput url) as [[|]|[ps total]]; split;
    try reflexivity; try discriminate.
Qed.

(** The request is answered with the format error exactly when the loop
    meets a segment it does not accept. *)
Lemma handler_invalid_exists (url : string) (random : Z) :
  handler url random = invalid_format_response <->
  Exists (fun segment => entry_of segment = None) (segments_of (path_of url)).
Proof.
  rewrite handler_invalid_iff, parseInput_invalid, forallb_valid_false.
  split; [tauto|]. intros H. split; [|exact H].
  intros E. rewrite E in H. inversion H.
Qed.

Lemma occurs_app (c : ascii) (a b : string) :
  occurs c (a ++ b) = occurs c a || occurs c b.
Proof.
  induction a as [|d a IH]; simpl; [reflexivity|].
  now rewrite IH, orb_assoc.
Qed.

Lemma digits_without (c : ascii) (ds : string) :
  JS.isDigit c = false -> all_digits ds = true -> occurs c ds = false.
Proof.
  intros Hc. induction ds as [|d ds IH]; simpl; [reflexivity|].
  intros H. apply andb_true_iff in H. destruct H as [Hd Hds].
  rewrite (IH Hds), orb_false_r.
  destruct (Ascii.eqb d c) eqn:E; [|reflexivity].
  apply Ascii.eqb_eq in E. congruence.
Qed.

Lemma count_char_0 (c : ascii) (s : string) :
  count_char c s = 0%nat -> occurs c s = false.
Proof.
  induction s as [|d s IH]; simpl; [reflexivity|].
  destruct (Ascii.eqb d c); simpl; [discriminate|exact IH].
Qed.

(** On a segment with exactly one separator, cutting at the first
    separator and cutting at every separator give the same two parts. *)
Lemma split_first_only (sep : ascii) (s : string) :
  count_char sep s = 1%nat ->
  exists before after,
    split_first sep s = Some (before, after) /\
    JS.split sep s = [before; after].
Proof.
  induction s as [|c s IH]; simpl; [discriminate|].
  destruct (Ascii.eqb c sep) eqn:Hc; simpl.
  - intros H. injection H as H. exists EmptyString, s.
    split; [reflexivity|]. now rewrite (split_free sep s (count_char_0 _ _ H)).
  - intros H. destruct (IH H) as (before & after & H1 & H2).
    exists (String c before), after. now rewrite H1, H2.
Qed.

(** ** The selection loop *)

Lemma ltb_num (u z : Z) :
  JS.ltb (JS.SNum u) (JS.Num z) = true <-> u < z * JS.unit.
Proof. simpl. apply Z.ltb_lt. Qed.

(** A smaller winning number is below whatever a larger one is below. *)
Lemma ltb_mono (u v : Z) (c : JS.number) :
  u <= v -> JS.ltb (JS.SNum v) c = true -> JS.ltb (JS.SNum u) c = true.
Proof.
  intros H. destruct c as [|z| |]; simpl; try tauto.
  rewrite !Z.ltb_lt. lia.
Qed.

(** The loop returns the name of the entry it stops at. *)
Lemma select_loop_index (w : JS.scaled) (ps : list prize) (c : JS.number) :
  select_loop w ps c =
  match select_index w ps c with
  | Some i => option_map name (nth_error ps i)
  | None => None
  end.
Proof.
  revert c. induction ps as [|p ps IH]; intros c; simpl; [reflexivity|].
  destruct (JS.ltb w (JS.add c (weight p))); [reflexivity|].
  rewrite IH. destruct (select_index w ps (JS.add c (weight p))); reflexivity.
Qed.

(** Where the loop stops: at the first position whose cumulative weight
    is above the winning number. *)
Lemma select_index_first (w : JS.scaled) (ps : list prize) (c : JS.number)
    (i : nat) :
  select_index w ps c = Some i <->
  (i < List.length ps)%nat /\
  JS.ltb w (accumulate c (firstn (S i) ps)) = true /\
  (forall j, (j < i)%nat -> JS.ltb w (accumulate c (firstn (S j) ps)) = false).
Proof.
  revert c i. induction ps as [|p ps IH]; intros c i.
  - simpl. split; [discriminate|]. intros (H & _). inversion H.
  - cbn [select_index].
    destruct (JS.ltb w (JS.add c (weight p))) eqn:E.
    + split.
      * intros [= <-]. repeat split.
        -- simpl. lia.
        -- exact E.
        -- intros j Hj. lia.
      * intros (_ & _ & Hfirst). destruct i as [|i]; [reflexivity|].
        specialize (Hfirst O (Nat.lt_0_succ i)).
        cbn [firstn] in Hfirst. rewrite accumulate_cons in Hfirst.
        unfold accumulate in Hfirst. simpl in Hfirst. congruence.
    + split.
      * destruct (select_index w ps (JS.add c (weight p))) as [k|] eqn:Ek;
          [|discriminate].
        intros [= <-]. apply IH in Ek. destruct Ek as (Hk & Hlt & Hfirst).
        repeat split.
        -- simpl. lia.
        -- exact Hlt.
        -- intros [|j] Hj; [exact E|]. apply Hfirst. lia.
      * intros (Hi & Hlt & Hfirst). destruct i as [|i].
        -- cbn [firstn] in Hlt. rewrite accumulate_cons in Hlt.
           unfold accumulate in Hlt. simpl in Hlt. congruence.
        -- assert (Hk : select_index w ps (JS.add c (weight p)) = Some i).
           { apply IH. repeat split.
             - simpl in Hi. lia.
             - exact Hlt.
             - intros j Hj. apply (Hfirst (S j)). lia. }
           now rewrite Hk.
Qed.

(** A winning number below the last cumulative weight stops the loop
    inside the list. *)
Lemma select_index_total (w : JS.scaled) (ps : list prize) (c : JS.number) :
  ps <> [] -> JS.ltb w (accumulate c ps) = true ->
  exists i, select_index w ps c = Some i.
Proof.
  revert c. induction ps as [|p ps IH]; intros c Hne Hlt; [congruence|].
  cbn [select_index].
  destruct (JS.ltb w (JS.add c (weight p))) eqn:E; [now exists O|].
  destruct ps as [|q ps].
  - unfold accumulate in Hlt. simpl in Hlt. congruence.
  - destruct (IH (JS.add c (weight p))) as (i & Hi); [discriminate|exact Hlt|].
    exists (S i). now rewrite Hi.
Qed.

Lemma select_index_selects (w : JS.scaled) (ps : list prize) (c : JS.number)
    (i : nat) :
  select_index w ps c = Some i ->
  exists p, nth_error ps i = Some p /\ select_loop w ps c = Some (name p).
Proof.
  intros Hi. pose proof Hi as Hi'. apply select_index_first in Hi'.
  destruct Hi' as (Hlen & _).
  destruct (nth_error ps i) as [p|] eqn:Hp.
  - exists p. split; [reflexivity|].
    now rewrite select_loop_index, Hi, Hp.
  - apply nth_error_None in Hp. lia.
Qed.


(** *** Weights whose sums stay within 2^53 *)

Lemma sum_weights_cons (p : prize) (ps : list prize) :
  sum_weights (p :: ps) = weight_int p + sum_weights ps.
Proof. reflexivity. Qed.

Lemma sum_weights_app (ps qs : list prize) :
  sum_weights (ps ++ qs) = sum_weights ps + sum_weights qs.
Proof.
  induction ps as [|p ps IH]; [reflexivity|].
  simpl app. rewrite !sum_weights_cons, IH. lia.
Qed.

Lemma sum_weights_nonneg (ps : list prize) :
  Forall finite_weight ps -> 0 <= sum_weights ps.
Proof.
  induction 1 as [|p ps [_ Hp] _ IH]; [reflexivity|].
  rewrite sum_weights_cons. lia.
Qed.

Lemma sum_weights_pos (ps : list prize) :
  ps <> [] -> Forall finite_weight ps -> 0 < sum_weights ps.
Proof.
  intros Hne H. destruct H as [|p ps [_ Hp] H]; [congruence|].
  rewrite sum_weights_cons. pose proof (sum_weights_nonneg ps H). lia.
Qed.

Lemma Forall_firstn {A : Type} (P : A -> Prop) (i : nat) (l : list A) :
  Forall P l -> Forall P (firstn i l).
Proof.
  intros H. revert i. induction H as [|x l Hx _ IH]; intros [|i]; simpl;
    constructor; auto.
Qed.

Lemma partial_sum_step (ps : list prize) (i : nat) (p : prize) :
  nth_error ps i = Some p ->
  partial_sum ps (S i) = partial_sum ps i + weight_int p.
Proof.
  unfold partial_sum. revert i.
  induction ps as [|q ps IH]; intros [|i] H; try discriminate.
  - injection H as ->. simpl. lia.
  - rewrite !firstn_cons, !sum_weights_cons, (IH i H). lia.
Qed.

Lemma partial_sum_mono (ps : list prize) (i j : nat) :
  Forall finite_weight ps -> (i <= j)%nat ->
  partial_sum ps i <= partial_sum ps j.
Proof.
  unfold partial_sum. intros H. revert i j.
  induction H as [|p ps [_ Hp] H IH]; intros i j Hij.
  - now rewrite !firstn_nil.
  - destruct i as [|i].
    + simpl. apply sum_weights_nonneg. apply Forall_firstn.
      constructor; [|exact H]. split; [|exact Hp].
      unfold weight_int in *. destruct (weight p); try lia. reflexivity.
    + destruct j as [|j]; [lia|]. rewrite !firstn_cons.
      rewrite !sum_weights_cons. specialize (IH i j). lia.
Qed.

Lemma partial_sum_all (ps : list prize) :
  partial_sum ps (List.length ps) = sum_weights ps.
Proof. unfold partial_sum. now rewrite firstn_all. Qed.

Lemma partial_sum_strict (ps : list prize) (i : nat) :
  Forall finite_weight ps -> (i < List.length ps)%nat ->
  partial_sum ps i < partial_sum ps (S i).
Proof.
  intros H Hi. destruct (nth_error ps i) as [p|] eqn:Hp.
  - rewrite (partial_sum_step ps i p Hp).
    rewrite Forall_forall in H. destruct (H p (nth_error_In _ _ Hp)). lia.
  - apply nth_error_None in Hp. lia.
Qed.

(** While the sum stays within 2^53 the accumulation is exact. *)
Lemma accumulate_exact (c : Z) (ps : list prize) :
  Forall finite_weight ps -> 0 <= c -> c + sum_weights ps <= 2 ^ 53 ->
  accumulate (JS.Num c) ps = JS.Num (c + sum_weights ps).
Proof.
  intros H. revert c. induction H as [|p ps [Hw Hp] H IH]; intros c Hc Hsum.
  - simpl. now rewrite Z.add_0_r.
  - rewrite accumulate_cons, sum_weights_cons in *.
    pose proof (sum_weights_nonneg ps H) as Hs.
    rewrite Hw, add_exact by (rewrite Z.abs_eq; lia).
    rewrite IH by lia. f_equal. lia.
Qed.

Lemma cumulative_exact (ps : list prize) (i : nat) :
  Forall finite_weight ps -> sum_weights ps <= 2 ^ 53 ->
  cumulative ps i = JS.Num (partial_sum ps i).
Proof.
  intros H Hsum. unfold cumulative, total_of, partial_sum.
  rewrite accumulate_exact; [reflexivity|now apply Forall_firstn|lia|].
  rewrite Z.add_0_l.
  destruct (Nat.le_gt_cases i (List.length ps)) as [Hi|Hi].
  - pose proof (partial_sum_mono ps i (List.length ps) H Hi) as Hm.
    rewrite partial_sum_all in Hm. unfold partial_sum in Hm. lia.
  - rewrite firstn_all2 by lia. exact Hsum.
Qed.

(** In that range, stopping at [i] is the same as the winning number
    lying between the cumulative weights around entry [i]. *)
Lemma select_index_interval (u : Z) (ps : list prize) (i : nat) :
  Forall finite_weight ps -> sum_weights ps <= 2 ^ 53 ->
  0 <= u -> (i < List.length ps)%nat ->
  (select_index (JS.SNum u) ps (JS.Num 0) = Some i <->
   partial_sum ps i * JS.unit <= u < partial_sum ps (S i) * JS.unit).
Proof.
  intros H Hsum Hu Hi. rewrite select_index_first.
  fold (total_of (firstn (S i) ps)). fold (cumulative ps (S i)).
  rewrite (cumulative_exact ps (S i) H Hsum), ltb_num.
  pose proof unit_pos as Hunit.
  split.
  - intros (_ & Hlt & Hfirst). split; [|exact Hlt].
    destruct i as [|i]; [unfold partial_sum; simpl; lia|].
    specialize (Hfirst i (Nat.lt_succ_diag_r i)).
    fold (total_of (firstn (S i) ps)) in Hfirst. fold (cumulative ps (S i)) in Hfirst.
    rewrite (cumulative_exact ps (S i) H Hsum) in Hfirst.
    simpl in Hfirst. apply Z.ltb_ge in Hfirst. exact Hfirst.
  - intros (Hge & Hlt). repeat split; [exact Hi|exact Hlt|].
    intros j Hj.
    fold (total_of (firstn (S j) ps)). fold (cumulative ps (S j)).
    rewrite (cumulative_exact ps (S j) H Hsum). simpl. apply Z.ltb_ge.
    pose proof (partial_sum_mono ps (S j) i H Hj). nia.
Qed.

Lemma round53_between (a c : Z) :
  0 <= a -> 0 <= c <= 2 ^ 53 ->
  (a < c * JS.unit -> JS.round53 a <= c * JS.unit) /\
  (c * JS.unit <= a -> c * JS.unit <= JS.round53 a).
Proof.
  intros Ha Hc.
  assert (Hfix : JS.round53 (c * JS.unit) = c * JS.unit)
    by (apply (round53_fixed c 1074); lia).
  pose proof unit_pos as Hunit.
  split; intros H; rewrite <- Hfix; apply round53_mono; nia.
Qed.

Lemma is_draw_dyadic (m k : Z) :
  0 <= m < 2 ^ 53 -> 53 <= k <= 1074 -> is_draw (dyadic m k).
Proof.
  intros Hm Hk. exists m, (1074 - k). unfold dyadic. repeat split; lia.
Qed.

Lemma is_draw_half : is_draw (dyadic 1 1).
Proof. exists (2 ^ 52), 1021. split; [reflexivity|]. split; [split|]; lia || reflexivity. Qed.

(** ** Properties of the selection *)

(** C1 as it is worded does not hold.  For ["/a_7/b_3"] and the draw
    6305039478318694 / 2^53 (the double written 0.7) the exact product
    of the draw and the total 10 is below 7, inside the interval of the
    first entry, but the product the handler computes is the double 7,
    and the winner is the second entry. *)
Lemma selection_not_exactly_proportional :
  is_draw (dyadic 6305039478318694 53) /\
  parseInput "/a_7/b_3" =
    inr ([ {| name := "a"; weight := JS.Num 7 |};
           {| name := "b"; weight := JS.Num 3 |} ], JS.Num 10) /\
  0 * JS.unit <= dyadic 6305039478318694 53 * 10 < 7 * JS.unit /\
  JS.mulRandom (dyadic 6305039478318694 53) (JS.Num 10) = JS.SNum (7 * JS.unit) /\
  handler "/a_7/b_3" (dyadic 6305039478318694 53) =
    {| status := 200; body := [("winner", JString "b")] |}.
Proof.
  split; [apply is_draw_dyadic; split; try reflexivity; discriminate|].
  split; [reflexivity|]. split; [split; [discriminate|reflexivity]|].
  split; reflexivity.
Qed.

(** C1, amended.  For a non-empty list of entries with positive finite
    weights whose sum is at most 2^53, and a draw [r] in [0, 1): the
    cumulative weights [C_i] are the exact partial sums, and the winning
    number [w] is [r * total] rounded to the nearest double (no double
    is nearer to the product), at most [r * total / 2^53] away from it.
    The selection returns the name of the first entry [i] with
    [w < C_(i+1)]; entry [i] is the one selected
    exactly when [w] lies in [C_i, C_(i+1)), whose width is the weight of
    the entry.  When the exact product lies in that interval the entry
    selected is [i], or the next one when the product rounds up to
    [C_(i+1)].  The winning number is counted in units of 2^-1074. *)
Theorem selectWinner_rounded (ps : list prize) (random : Z) :
  ps <> [] -> Forall finite_weight ps -> sum_weights ps <= 2 ^ 53 ->
  is_draw random ->
  let total := sum_weights ps in
  let w := JS.round53 (random * total) in
  total_of ps = JS.Num total /\
  JS.mulRandom random (JS.Num total) = JS.SNum w /\
  2 ^ 53 * Z.abs (w - random * total) <= random * total /\
  (exists m j, w = m * 2 ^ j /\ 0 <= m < 2 ^ 53 /\ 0 <= j) /\
  (forall m j : Z,
      0 <= m < 2 ^ 53 -> 0 <= j ->
      Z.abs (w - random * total) <= Z.abs (m * 2 ^ j - random * total)) /\
  (exists i p,
      nth_error ps i = Some p /\
      select_index (JS.SNum w) ps (JS.Num 0) = Some i /\
      selectWinner ps (JS.Num total) random = Some (name p) /\
      w < partial_sum ps (S i) * JS.unit /\
      (forall j, (j < i)%nat -> ~ w < partial_sum ps (S j) * JS.unit)) /\
  (forall i p,
      nth_error ps i = Some p ->
      cumulative ps (S i) = JS.Num (partial_sum ps (S i)) /\
      partial_sum ps (S i) - partial_sum ps i = weight_int p /\
      (select_index (JS.SNum w) ps (JS.Num 0) = Some i ->
       selectWinner ps (JS.Num total) random = Some (name p)) /\
      (select_index (JS.SNum w) ps (JS.Num 0) = Some i <->
       partial_sum ps i * JS.unit <= w < partial_sum ps (S i) * JS.unit) /\
      (partial_sum ps i * JS.unit <= random * total
         < partial_sum ps (S i) * JS.unit ->
       select_index (JS.SNum w) ps (JS.Num 0) = Some i \/
       (w = partial_sum ps (S i) * JS.unit /\
        select_index (JS.SNum w) ps (JS.Num 0) = Some (S i)))).
Proof.
  intros Hne Hfin Hsum Hdraw total w.
  pose proof (sum_weights_pos ps Hne Hfin) as Ht. fold total in Ht, Hsum.
  destruct (is_draw_bound random Hdraw) as [Hr0 _].
  assert (Hprod : 0 <= random * total) by nia.
  destruct (product_below_total random total Hdraw Ht) as [Hw0 Hwt].
  fold w in Hw0, Hwt.
  assert (Htot : total_of ps = JS.Num total).
  { unfold total_of. rewrite accumulate_exact; [reflexivity|exact Hfin|lia|].
    fold total. lia. }
  assert (Hmul : JS.mulRandom random (JS.Num total) = JS.SNum w).
  { apply mulRandom_num. lia. }
  assert (Hsel : forall i, select_index (JS.SNum w) ps (JS.Num 0) = Some i ->
                 exists p, nth_error ps i = Some p /\
                           selectWinner ps (JS.Num total) random = Some (name p)).
  { intros i Hi. unfold selectWinner. rewrite Hmul.
    now apply select_index_selects. }
  split; [exact Htot|]. split; [exact Hmul|]. split.
  { destruct (round53_error (random * total) Hprod) as [E1 E2]. fold w in E1, E2.
    rewrite pow2_53 in *. lia. }
  split; [exact (round53_double (random * total) Hprod)|].
  split; [intros m j Hm Hj; now apply round53_nearest|].
  split.
  - destruct (select_index_total (JS.SNum w) ps (JS.Num 0) Hne) as (i & Hi).
    { fold (total_of ps). rewrite Htot. now apply ltb_num. }
    destruct (Hsel i Hi) as (p & Hp & Hwin).
    assert (Hlen : (i < List.length ps)%nat)
      by (apply nth_error_Some; congruence).
    pose proof (proj1 (select_index_interval w ps i Hfin Hsum Hw0 Hlen) Hi)
      as [Hlo Hhi].
    exists i, p. repeat split; try assumption.
    intros j Hj Hlt.
    pose proof (partial_sum_mono ps (S j) i Hfin Hj).
    pose proof unit_pos. nia.
  - intros i p Hp.
    assert (Hlen : (i < List.length ps)%nat)
      by (apply nth_error_Some; congruence).
    pose proof (select_index_interval w ps i Hfin Hsum Hw0 Hlen) as Hint.
    pose proof (partial_sum_step ps i p Hp) as Hstep.
    split; [now apply cumulative_exact|]. split; [lia|]. split.
    { intros Hi. destruct (Hsel i Hi) as (p' & Hp' & Hwin). congruence. }
    split; [exact Hint|].
    intros [Hlo Hhi].
    assert (Hci : 0 <= partial_sum ps i <= 2 ^ 53).
    { pose proof (partial_sum_mono ps 0 i Hfin (Nat.le_0_l i)) as H0.
      pose proof (partial_sum_mono ps i (List.length ps) Hfin) as H1.
      rewrite partial_sum_all in H1. unfold partial_sum in H0 at 1.
      simpl in H0. fold total in H1. lia. }
    assert (Hcj : 0 <= partial_sum ps (S i) <= 2 ^ 53).
    { pose proof (partial_sum_mono ps (S i) (List.length ps) Hfin Hlen) as H1.
      pose proof (partial_sum_mono ps i (S i) Hfin (Nat.le_succ_diag_r i)) as H2.
      rewrite partial_sum_all in H1. fold total in H1. lia. }
    destruct (round53_between (random * total) (partial_sum ps i) Hprod Hci)
      as [_ Hge]. specialize (Hge Hlo). fold w in Hge.
    destruct (round53_between (random * total) (partial_sum ps (S i)) Hprod Hcj)
      as [Hle _]. specialize (Hle Hhi). fold w in Hle.
    destruct (Z.eq_dec w (partial_sum ps (S i) * JS.unit)) as [E|N].
    + right. split; [exact E|].
      assert (Hlen' : (S i < List.length ps)%nat).
      { destruct (Nat.eq_dec (S i) (List.length ps)) as [El|Nl]; [|lia].
        exfalso. rewrite El, partial_sum_all in E. fold total in E. lia. }
      apply (select_index_interval w ps (S i) Hfin Hsum Hw0 Hlen').
      pose proof (partial_sum_strict ps (S i) Hfin Hlen').
      pose proof unit_pos. nia.
    + left. apply Hint. lia.
Qed.

Lemma abc_finite : Forall finite_weight abc.
Proof. repeat constructor. Qed.

Lemma selectWinner_rounded_witness :
  exists i p,
    nth_error abc i = Some p /\
    selectWinner abc (JS.Num 100) (dyadic 1 1) = Some (name p).
Proof.
  assert (Hne : abc <> []) by discriminate.
  assert (Hsum : sum_weights abc <= 2 ^ 53) by discriminate.
  destruct (selectWinner_rounded abc (dyadic 1 1) Hne abc_finite Hsum is_draw_half)
    as (_ & _ & _ & _ & _ & (i & p & Hp & _ & Hsel & _) & _).
  exists i, p. split; [exact Hp|exact Hsel].
Defined.





(** ** Properties of the parsing *)

(** C3 as it is worded does not hold.  The request ["/a_0"] is answered
    with the format error although its only segment splits into exactly
    two parts.  And the split is not on the first [_] only: [a_50_x],
    cut at its first [_], would give the label [a] and a weight-string
    that parses to 50, while the handler cuts it into three parts and
    answers with the format error. *)
Lemma invalid_format_not_only_split :
  (handler "/a_0" 0 = invalid_format_response /\
   List.length (JS.split "_" "a_0") = 2%nat /\
   split_first "_" "a_0" = Some ("a", "0")) /\
  (handler "/a_50_x" 0 = invalid_format_response /\
   split_first "_" "a_50_x" = Some ("a", "50_x") /\
   JS.parseInt "50_x" = JS.Num 50 /\
   JS.split "_" "a_50_x" = ["a"; "50"; "x"]) /\
  ~ (forall (url : string) (r : Z),
        handler url r = invalid_format_response <->
        Exists (fun segment => List.length (JS.split "_" segment) <> 2%nat)
               (segments_of (path_of url))).
Proof.
  split; [repeat split|]. split; [repeat split|].
  intros H. destruct (H "/a_0" 0) as [H1 _].
  assert (E : handler "/a_0" 0 = invalid_format_response) by reflexivity.
  specialize (H1 E).
  change (segments_of (path_of "/a_0")) with ["a_0"] in H1.
  inversion H1 as [s l Hlen|s l Htl]; subst.
  - apply Hlen. reflexivity.
  - inversion Htl.
Qed.

(** C3, amended.  The split is on every [_], so a segment gives exactly
    two parts exactly when it contains exactly one [_].  The request is
    answered with the format error exactly when some segment does not
    split into exactly two parts or has a weight-string that parses to
    [NaN] or to a value that is not positive; a segment with more than
    one [_], such as [a_50_x], is answered with the format error.  On a
    segment with exactly one [_] the two parts are those of a cut at the
    first [_]. *)
Theorem invalid_format_characterised (url : string) (r : Z) :
  (handler url r = invalid_format_response <->
   Exists (fun segment =>
             List.length (JS.split "_" segment) <> 2%nat \/
             bad_weight (JS.item (JS.split "_" segment) 1) = true)
          (segments_of (path_of url))) /\
  (forall segment : string,
      List.length (JS.split "_" segment) = 2%nat <->
      count_char "_" segment = 1%nat) /\
  (forall segment : string,
      count_char "_" segment = 1%nat ->
      exists label weightString,
        split_first "_" segment = Some (label, weightString) /\
        JS.split "_" segment = [label; weightString]) /\
  (forall segment : string,
      In segment (segments_of (path_of url)) ->
      (2 <= count_char "_" segment)%nat ->
      handler url r = invalid_format_response) /\
  handler "/a_50_x" r = invalid_format_response.
Proof.
  assert (Hiff :
    handler url r = invalid_format_response <->
    Exists (fun segment =>
              List.length (JS.split "_" segment) <> 2%nat \/
              bad_weight (JS.item (JS.split "_" segment) 1) = true)
           (segments_of (path_of url))).
  { rewrite handler_invalid_exists, !Exists_exists.
    split; intros (segment & Hin & H); exists segment; split;
      try assumption; now apply entry_of_None. }
  split; [exact Hiff|]. split; [|split; [|split]].
  - intros segment. rewrite split_length. lia.
  - intros segment. apply split_first_only.
  - intros segment Hin Hcount. apply Hiff. apply Exists_exists.
    exists segment. split; [exact Hin|]. left. rewrite split_length. lia.
  - reflexivity.
Qed.


(** A segment made of a label without [_], a [_] and a weight-string
    without [_] that passes the weight check is accepted after any
    accepted segments. *)
Lemma accepted_segment_appended (good : list string) (ps : list prize)
    (label weightString : string) :
  Forall2 (fun segment p => entry_of segment = Some p) good ps ->
  occurs "_" label = false -> occurs "_" weightString = false ->
  bad_weight weightString = false ->
  parse_loop (good ++ [(label ++ String "_" weightString)%string]) parse_init =
  {| totalWeight :=
       total_of (ps ++ [{| name := label; weight := JS.parseInt weightString |}]);
     prizes := ps ++ [{| name := label; weight := JS.parseInt weightString |}];
     isValid := true |}.
Proof.
  intros Hgood Hlabel Hfree Hok.
  assert (He : entry_of (label ++ String "_" weightString)
               = Some {| name := label; weight := JS.parseInt weightString |}).
  { apply entry_of_Some. exists weightString. simpl.
    split; [now apply split_two|auto]. }
  rewrite (parse_loop_all _ (ps ++ [{| name := label;
                                       weight := JS.parseInt weightString |}])).
  - reflexivity.
  - apply Forall2_app; [exact Hgood|]. constructor; [exact He|constructor].
Qed.

Lemma positive_weight_ok (weightString : string) (v : Z) :
  JS.parseInt weightString = JS.ofInt v -> 0 < v ->
  bad_weight weightString = false.
Proof.
  intros E Hv. unfold bad_weight. rewrite E, ofInt_isNaN, ofInt_leZero.
  simpl. now apply Z.leb_gt.
Qed.

(** C4 as it is worded does not hold.  The weight-string
    ["9007199254740993abc"] begins with the digits of
    9007199254740993 = 2^53 + 1; the weight it parses to is the double
    nearest to that value, 9007199254740992, and the segment is accepted
    with this weight. *)
Lemma parseInt_rounds_above_2_53 :
  decimal_value "9007199254740993" = Some 9007199254740993 /\
  JS.parseInt "9007199254740993abc" = JS.Num 9007199254740992 /\
  parseInput "/a_9007199254740993abc" =
    inr ([ {| name := "a"; weight := JS.Num 9007199254740992 |} ],
         JS.Num 9007199254740992).
Proof. repeat split. Qed.

(** C4, amended.  A weight-string made of decimal digits of value [v]
    followed by something that does not start with a digit parses to
    the double nearest to [v], which is [v] itself while [v] is at most
    2^53 (so ["50abc"] parses to 50) and [Infinity] when the rounded
    value reaches 2^1024, whatever follows the digits; when [v] is
    positive the loop accepts the segment with that weight. *)
Theorem parseInt_trailing_garbage (label ds rest : string) (v : Z)
    (good : list string) (ps : list prize) :
  decimal_value ds = Some v -> ds <> EmptyString ->
  rest <> EmptyString -> stops_digits rest = true ->
  JS.parseInt (ds ++ rest) = JS.ofInt v /\
  JS.parseInt (ds ++ rest) = JS.parseInt ds /\
  0 <= v /\
  (v <= 2 ^ 53 -> JS.parseInt (ds ++ rest) = JS.Num v) /\
  (0 < v ->
   (JS.parseInt (ds ++ rest) = JS.Infinity /\ 2 ^ 1024 <= JS.round53 v) \/
   (JS.parseInt (ds ++ rest) = JS.Num (JS.round53 v) /\
    JS.round53 v < 2 ^ 1024)) /\
  ((exists m j, JS.round53 v = m * 2 ^ j /\ 0 <= m < 2 ^ 53 /\ 0 <= j) /\
   forall m j : Z,
     0 <= m < 2 ^ 53 -> 0 <= j ->
     Z.abs (JS.round53 v - v) <= Z.abs (m * 2 ^ j - v)) /\
  (0 < v -> occurs "_" label = false -> occurs "_" rest = false ->
   Forall2 (fun segment p => entry_of segment = Some p) good ps ->
   parse_loop (good ++ [(label ++ String "_" (ds ++ rest))%string]) parse_init =
   {| totalWeight := total_of (ps ++ [{| name := label; weight := JS.ofInt v |}]);
      prizes := ps ++ [{| name := label; weight := JS.ofInt v |}];
      isValid := true |}).
Proof.
  intros Hv Hne Hrest Hstop.
  destruct (decimal_value_mathInt ds v Hv) as [Hds Hm].
  assert (Hparse : JS.parseInt (ds ++ rest) = JS.ofInt v).
  { rewrite (parseInt_digits ds rest Hne Hds Hstop). now rewrite Hm. }
  assert (Hv0 : 0 <= v).
  { rewrite <- Hm. now apply mathInt_nonneg. }
  split; [exact Hparse|]. split; [|split; [exact Hv0|split; [|split; [|split]]]].
  - rewrite Hparse.
    pose proof (parseInt_digits ds EmptyString Hne Hds eq_refl) as H.
    rewrite append_empty_r in H. now rewrite H, Hm.
  - intros Hsmall. rewrite Hparse. apply ofInt_small. rewrite Z.abs_eq; lia.
  - intros Hpos. rewrite Hparse. apply ofInt_pos_cases. exact Hpos.
  - split; [exact (round53_double v Hv0)|].
    intros m j Hmj Hj. now apply round53_nearest.
  - intros Hpos Hlabel Hfree Hgood. rewrite <- Hparse.
    apply accepted_segment_appended; try assumption.
    + rewrite occurs_app, Hfree, (digits_without "_" ds eq_refl Hds). reflexivity.
    + now apply (positive_weight_ok _ v).
Qed.

Lemma parseInt_trailing_garbage_witness :
  JS.parseInt "50abc" = JS.Num 50 /\
  parse_loop ["x_1"; "a_50abc"] parse_init =
  {| totalWeight := JS.Num 51;
     prizes := [ {| name := "x"; weight := JS.Num 1 |};
                 {| name := "a"; weight := JS.Num 50 |} ];
     isValid := true |}.
Proof.
  assert (H1 : decimal_value "50" = Some 50) by reflexivity.
  assert (H2 : "50" <> EmptyString) by discriminate.
  assert (H3 : "abc" <> EmptyString) by discriminate.
  assert (H4 : stops_digits "abc" = true) by reflexivity.
  destruct (parseInt_trailing_garbage "a" "50" "abc" 50 ["x_1"]
              [ {| name := "x"; weight := JS.Num 1 |} ] H1 H2 H3 H4)
    as (_ & _ & _ & Hsmall & _ & _ & Hloop).
  split; [apply Hsmall; discriminate|].
  assert (H5 : occurs "_" "a" = false) by reflexivity.
  assert (H6 : occurs "_" "abc" = false) by reflexivity.
  assert (H7 : 0 < 50) by reflexivity.
  assert (H8 : Forall2 (fun segment p => entry_of segment = Some p) ["x_1"]
                       [ {| name := "x"; weight := JS.Num 1 |} ])
    by (repeat constructor).
  exact (Hloop H7 H5 H6 H8).
Defined.

(** C5 as it is worded does not hold.  A weight of 310 digits passes the
    weight check and the validated list holds the weight [Infinity],
    which is no integer. *)
Lemma infinite_weight_accepted :
  parseInput huge_weight_url =
    inr ([ {| name := "a"; weight := JS.Infinity |} ], JS.Infinity) /\
  JS.isNaN JS.Infinity = false /\ JS.leZero JS.Infinity = false /\
  (forall z : Z, JS.Infinity <> JS.Num z).
Proof. repeat split; try (vm_compute; reflexivity). discriminate. Qed.

(** C5, amended.  A segment whose weight-string parses to [NaN] or to a
    value that is at most 0 makes the request fail with the format
    error; so when the parsing succeeds the list is not empty, every
    weight in it is a positive number, that is a positive double holding
    an integer or [Infinity], and so is the total, the weights added up
    in order.  While the weights are finite and their sum is at most
    2^53 the total is exactly their sum. *)
Theorem weights_positive (url : string) (r : Z) :
  (Exists (fun segment =>
             exists label weightString,
               JS.split "_" segment = [label; weightString] /\
               (JS.parseInt weightString = JS.NaN \/
                JS.leZero (JS.parseInt weightString) = true))
          (segments_of (path_of url)) ->
   parseInput url = inl InvalidFormat /\
   handler url r = invalid_format_response) /\
  (forall (ps : list prize) (total : JS.number),
      parseInput url = inr (ps, total) ->
      ps <> [] /\
      Forall (fun p => positive_number (weight p)) ps /\
      total = total_of ps /\ positive_number total /\
      (Forall finite_weight ps -> sum_weights ps <= 2 ^ 53 ->
       total = JS.Num (sum_weights ps) /\ 0 < sum_weights ps)).
Proof.
  split.
  - intros H.
    assert (Hinv : handler url r = invalid_format_response).
    { apply handler_invalid_exists. rewrite Exists_exists in *.
      destruct H as (segment & Hin & label & ws & Hsplit & Hbad).
      exists segment. split; [exact Hin|]. apply entry_of_None. right.
      rewrite Hsplit. unfold JS.item. simpl. now apply bad_weight_iff. }
    split; [|exact Hinv]. now apply (handler_invalid_iff url r).
  - intros ps total H. apply parseInput_inr in H.
    destruct H as (Hne & Hall & ->).
    assert (Hpos : Forall (fun p => positive_number (weight p)) ps).
    { clear Hne. induction Hall as [|s p ss ps Hp _ IH]; constructor; [|exact IH].
      now apply (entry_of_positive s). }
    assert (Hps : ps <> []).
    { intros ->. inversion Hall. congruence. }
    split; [exact Hps|]. split; [exact Hpos|]. split; [reflexivity|]. split.
    + unfold total_of.
      assert (Hgen : forall c, c = JS.Num 0 \/ positive_number c ->
                     positive_number (accumulate c ps)).
      { clear Hall Hne. induction Hpos as [|p ps Hp Hpos IH]; [congruence|].
        intros c Hc. rewrite accumulate_cons.
        destruct (add_positive c (weight p) Hc Hp) as (Hadd & _).
        destruct ps as [|q ps]; [exact Hadd|].
        apply IH; [discriminate|now right]. }
      apply Hgen. now left.
    + intros Hfin Hsum. split; [|now apply sum_weights_pos].
      unfold total_of. rewrite accumulate_exact; [reflexivity|exact Hfin|lia|lia].
Qed.

Lemma weights_positive_witness :
  handler "/a_0/b_10" 0 = invalid_format_response /\
  Forall (fun p => positive_number (weight p)) abc.
Proof.
  destruct (weights_positive "/a_0/b_10" 0) as [Hbad _].
  destruct (weights_positive "/a_50/b_30/c_20" 0) as [_ Hgood].
  split.
  - apply Hbad. apply Exists_cons_hd. exists "a", "0".
    split; [reflexivity|]. right. reflexivity.
  - destruct (Hgood abc (JS.Num 100) eq_refl) as (_ & Hpos & _). exact Hpos.
Defined.

(** ** The path and its segments *)

Lemma split_app_sep (sep : ascii) (a b : string) :
  JS.split sep (a ++ String sep b) = (JS.split sep a ++ JS.split sep b)%list.
Proof.
  induction a as [|c a IH].
  - simpl. now rewrite Ascii.eqb_refl.
  - destruct (Ascii.eqb c sep) eqn:Hc.
    + simpl. rewrite Hc, IH. reflexivity.
    + destruct (split_cons sep c a Hc) as (piece & pieces & E1 & E2).
      rewrite E2. change (String c a ++ String sep b)%string
        with (String c (a ++ String sep b))%string.
      simpl. rewrite Hc, IH, E1. reflexivity.
Qed.

Lemma path_of_free (s : string) :
  occurs "?" s = false -> path_of s = s.
Proof.
  intros H. unfold path_of. now rewrite (split_free "?" s H).
Qed.

Lemma path_of_app (a b : string) :
  occurs "?" a = false -> path_of (a ++ b) = (a ++ path_of b)%string.
Proof.
  induction a as [|c a IH]; intros H; [reflexivity|].
  simpl in H. apply orb_false_iff in H. destruct H as [Hc Ha].
  specialize (IH Ha). unfold path_of in *.
  destruct (split_cons "?" c (a ++ b) Hc) as (piece & pieces & E1 & E2).
  change (String c a ++ b)%string with (String c (a ++ b))%string.
  rewrite E2. rewrite E1 in IH. unfold JS.item in *. simpl in *.
  now rewrite IH.
Qed.

Lemma path_of_query (query : string) :
  query = EmptyString \/ (exists tail, query = String "?" tail) ->
  path_of query = EmptyString.
Proof. intros [->|(tail & ->)]; reflexivity. Qed.

Lemma handler_same_segments (url1 url2 : string) (r : Z) :
  segments_of (path_of url1) = segments_of (path_of url2) ->
  handler url1 r = handler url2 r.
Proof. intros H. unfold handler. now rewrite H. Qed.

Lemma segments_of_slash_app (a b : string) :
  segments_of (a ++ String "/" b) = (segments_of a ++ segments_of b)%list.
Proof.
  unfold segments_of. now rewrite split_app_sep, filter_app.
Qed.

Lemma segments_of_single (segment : string) :
  keep_segment segment = true -> occurs "/" segment = false ->
  segments_of segment = [segment].
Proof.
  intros Hkeep Hfree. unfold segments_of.
  rewrite (split_free "/" segment Hfree). simpl. now rewrite Hkeep.
Qed.

Lemma segments_of_slash (s : string) :
  segments_of (String "/" s) = segments_of s.
Proof.
  change (String "/" s) with (EmptyString ++ String "/" s)%string.
  now rewrite segments_of_slash_app.
Qed.

Lemma url_of_segments_shape (segments : list string) :
  url_of_segments segments = EmptyString \/
  exists tail, url_of_segments segments = String "/" tail.
Proof.
  destruct segments as [|segment segments]; [now left|].
  right. simpl. eauto.
Qed.

Lemma segments_of_url (segments : list string) :
  Forall (fun segment =>
            keep_segment segment = true /\ occurs "/" segment = false)
         segments ->
  segments_of (url_of_segments segments) = segments.
Proof.
  induction 1 as [|segment segments [Hkeep Hfree] _ IH]; [reflexivity|].
  cbn [url_of_segments fold_right]. fold (url_of_segments segments).
  rewrite segments_of_slash.
  destruct (url_of_segments_shape segments) as [E|(tail & E)].
  - rewrite E in *. rewrite append_empty_r.
    rewrite (segments_of_single _ Hkeep Hfree).
    destruct segments as [|s ss]; [reflexivity|discriminate E].
  - rewrite E in *. rewrite segments_of_slash_app, (segments_of_single _ Hkeep Hfree).
    rewrite segments_of_slash in IH. now rewrite IH.
Qed.

Lemma url_of_segments_no_query (segments : list string) :
  Forall (fun segment => occurs "?" segment = false) segments ->
  occurs "?" (url_of_segments segments) = false.
Proof.
  induction 1 as [|segment segments Hfree _ IH]; [reflexivity|].
  cbn [url_of_segments fold_right]. fold (url_of_segments segments).
  simpl. now rewrite occurs_app, Hfree, IH.
Qed.

Lemma entry_of_keep (segment : string) (p : prize) :
  entry_of segment = Some p -> keep_segment segment = true.
Proof.
  intros H. apply keep_segment_iff.
  repeat split; intros ->; discriminate H.
Qed.


Lemma join_split (sep : ascii) (s : string) :
  join sep (JS.split sep s) = s.
Proof.
  induction s as [|c s IH]; [reflexivity|].
  destruct (Ascii.eqb c sep) eqn:Hc.
  - simpl. rewrite Hc. apply Ascii.eqb_eq in Hc. subst c.
    destruct (JS.split sep s) as [|piece pieces] eqn:E;
      [exfalso; exact (split_not_nil sep s E)|].
    cbn [join]. cbn [join] in IH. simpl. now rewrite IH.
  - destruct (split_cons sep c s Hc) as (piece & pieces & E1 & E2).
    rewrite E2. rewrite E1 in IH. destruct pieces as [|piece' pieces].
    + simpl in *. now rewrite IH.
    + cbn [join] in *. simpl. now rewrite IH.
Qed.

(** The pieces are the only way to cut the string at every separator. *)
Lemma split_unique (sep : ascii) (pieces : list string) :
  pieces <> [] -> Forall (fun piece => occurs sep piece = false) pieces ->
  JS.split sep (join sep pieces) = pieces.
Proof.
  intros Hne H. induction H as [|piece pieces Hfree H IH]; [congruence|].
  destruct pieces as [|piece' pieces].
  - simpl. now apply split_free.
  - change (join sep (piece :: piece' :: pieces))
      with (piece ++ String sep (join sep (piece' :: pieces)))%string.
    rewrite split_app_sep, (split_free sep piece Hfree).
    rewrite IH by discriminate. reflexivity.
Qed.

(** C6.  The handler keeps what precedes the first [?] of the URL, cuts
    it at every [/] and keeps the pieces that are not empty and are
    neither [api] nor [picker]; it answers with status 400, the error
    "No prizes provided." and a usage field exactly when no segment is
    left, that is when every piece is empty or a routing token, as for
    the empty URL and for ["/"]; a URL with another piece between two
    [/] is not answered so. *)
Theorem no_prizes_exactly_when_empty (url : string) (r : Z) :
  (exists query,
      url = (path_of url ++ query)%string /\
      occurs "?" (path_of url) = false /\
      (query = EmptyString \/ exists tail, query = String "?" tail)) /\
  (join "/" (JS.split "/" (path_of url)) = path_of url /\
   Forall (fun piece => occurs "/" piece = false) (JS.split "/" (path_of url)) /\
   forall pieces : list string,
     pieces <> [] -> Forall (fun piece => occurs "/" piece = false) pieces ->
     join "/" pieces = path_of url -> JS.split "/" (path_of url) = pieces) /\
  (forall segment : string,
      In segment (segments_of (path_of url)) <->
      In segment (JS.split "/" (path_of url)) /\
      segment <> EmptyString /\ segment <> "api" /\ segment <> "picker") /\
  (handler url r = no_prizes_response <-> segments_of (path_of url) = []) /\
  (handler url r = no_prizes_response <->
   Forall (fun piece => piece = EmptyString \/ piece = "api" \/ piece = "picker")
          (JS.split "/" (path_of url))) /\
  (parseInput url = inl NoPrizesProvided <-> segments_of (path_of url) = []) /\
  (forall before segment after : string,
      url = (before ++ String "/" (segment ++ after))%string ->
      occurs "?" before = false ->
      segment <> EmptyString -> segment <> "api" -> segment <> "picker" ->
      occurs "/" segment = false -> occurs "?" segment = false ->
      (after = EmptyString \/
       exists tail, after = String "/" tail \/ after = String "?" tail) ->
      In segment (segments_of (path_of url)) /\
      handler url r <> no_prizes_response) /\
  status no_prizes_response = 400 /\
  body no_prizes_response =
    [("error", JString "No prizes provided."); ("usage", JString usage_hint)] /\
  handler EmptyString r = no_prizes_response /\
  handler "/" r = no_prizes_response /\
  handler "/a_50/b_30/c_20" r <> no_prizes_response.
Proof.
  assert (Hiff : handler url r = no_prizes_response <->
                 segments_of (path_of url) = []).
  { rewrite handler_no_prizes_iff. apply parseInput_no_prizes. }
  split; [|split; [|split; [|split; [|split; [|split; [|split]]]]]].
  - destruct (split_head "?" url) as (rest & H1 & H2 & H3).
    exists rest. auto.
  - split; [apply join_split|]. split; [apply split_pieces_free|].
    intros pieces Hne Hfree <-. now apply split_unique.
  - intros segment. unfold segments_of. rewrite filter_In, keep_segment_iff.
    tauto.
  - exact Hiff.
  - rewrite Hiff. unfold segments_of.
    induction (JS.split "/" (path_of url)) as [|piece pieces IH].
    + split; [constructor|reflexivity].
    + cbn [filter]. destruct (keep_segment piece) eqn:Hk.
      * split; [discriminate|]. intros H. inversion H as [|x l Hx Hl]; subst.
        apply keep_segment_iff in Hk. exfalso. tauto.
      * rewrite IH. split.
        -- intros H. constructor; [|exact H].
           destruct (string_dec piece EmptyString) as [E|N1]; [now left|].
           destruct (string_dec piece "api") as [E|N2]; [right; now left|].
           destruct (string_dec piece "picker") as [E|N3]; [right; now right|].
           assert (keep_segment piece = true) by (apply keep_segment_iff; auto).
           congruence.
        -- intros H. now inversion H.
  - apply parseInput_no_prizes.
  - intros before segment after -> Hb Hn1 Hn2 Hn3 Hslash Hquery Hafter.
    assert (Hkeep : keep_segment segment = true)
      by (apply keep_segment_iff; auto).
    assert (Hin : In segment
              (segments_of (path_of (before ++ String "/" (segment ++ after))))).
    { rewrite (path_of_app before _ Hb).
      change (String "/" (segment ++ after))
        with (String "/" EmptyString ++ (segment ++ after))%string.
      rewrite (path_of_app (String "/" EmptyString) _ eq_refl).
      rewrite (path_of_app segment _ Hquery). simpl append.
      rewrite segments_of_slash_app. apply in_or_app. right.
      destruct Hafter as [->|(tail & [->| ->])].
      - change (path_of EmptyString) with EmptyString.
        rewrite append_empty_r, (segments_of_single _ Hkeep Hslash).
        now left.
      - change (path_of (String "/" tail))
          with (path_of (String "/" EmptyString ++ tail)).
        rewrite (path_of_app (String "/" EmptyString) _ eq_refl). simpl append.
        rewrite segments_of_slash_app, (segments_of_single _ Hkeep Hslash).
        now left.
      - change (path_of (String "?" tail)) with EmptyString.
        rewrite append_empty_r, (segments_of_single _ Hkeep Hslash).
        now left. }
    split; [exact Hin|]. intros E.
    assert (Hnil : segments_of
                     (path_of (before ++ String "/" (segment ++ after))) = []).
    { revert E. generalize (before ++ String "/" (segment ++ after))%string.
      intros u E. unfold handler in E.
      destruct (segments_of (path_of u)); [reflexivity|].
      cbn [List.length Nat.eqb] in E.
      destruct (negb _) in E; discriminate E. }
    rewrite Hnil in Hin. inversion Hin.
  - repeat split. discriminate.
Qed.

Lemma no_prizes_exactly_when_empty_witness :
  In "x_1" (segments_of (path_of "/api/x_1?y")) /\
  handler "/api/x_1?y" 0 <> no_prizes_response.
Proof.
  destruct (no_prizes_exactly_when_empty "/api/x_1?y" 0)
    as (_ & _ & _ & _ & _ & _ & Hseg & _).
  apply (Hseg "/api" "x_1" "?y"); try reflexivity; try discriminate.
  right. exists "y". now right.
Defined.


(** C7.  When some segment is not accepted, the loop stops at the first
    such segment, in the order of the path, without looking at what
    follows it; the request is answered with status 400 and a body made
    of the error "Invalid format detected." and a details field, and
    with nothing else: no entry and no winner. *)
Theorem first_invalid_segment_aborts (url : string) (r : Z) :
  Exists (fun segment => entry_of segment = None) (segments_of (path_of url)) ->
  (exists (good : list string) (ps : list prize) (bad : string)
          (after : list string),
      segments_of (path_of url) = (good ++ bad :: after)%list /\
      Forall2 (fun segment p => entry_of segment = Some p) good ps /\
      entry_of bad = None /\
      forall after' : list string,
        parse_loop (good ++ bad :: after')%list parse_init =
        {| totalWeight := total_of ps; prizes := ps; isValid := false |}) /\
  parseInput url = inl InvalidFormat /\
  handler url r = invalid_format_response /\
  status invalid_format_response = 400 /\
  body invalid_format_response =
    [("error", JString "Invalid format detected.");
     ("details", JString format_hint)].
Proof.
  intros H.
  assert (Hinv : handler url r = invalid_format_response)
    by now apply handler_invalid_exists.
  split; [|split; [now apply (handler_invalid_iff url r)|repeat split; exact Hinv]].
  destruct (segments_split (segments_of (path_of url)))
    as [(ps & Hall)|(good & ps & bad & after & E & Hgood & Hbad)].
  - exfalso. apply entries_forallb_valid in Hall.
    apply forallb_valid_false in H. congruence.
  - exists good, ps, bad, after. repeat split; try assumption.
    intros after'. now rewrite (parse_loop_first_bad good ps bad after' _ Hgood Hbad).
Qed.

Lemma first_invalid_segment_aborts_witness :
  handler "/a_50/b" 0 = invalid_format_response.
Proof.
  assert (H : Exists (fun segment => entry_of segment = None)
                     (segments_of (path_of "/a_50/b"))).
  { apply Exists_cons_tl. apply Exists_cons_hd. reflexivity. }
  destruct (first_invalid_segment_aborts "/a_50/b" 0 H) as (_ & _ & Hinv & _).
  exact Hinv.
Defined.

(** C8 as it is worded does not hold: the segment [_50] is accepted, and
    the validated list has an entry with the empty label, which the
    handler then answers as the winner. *)
Lemma empty_label_accepted :
  parseInput "/_50" =
    inr ([{| name := EmptyString; weight := JS.Num 50 |}], JS.Num 50) /\
  handler "/_50" 0 =
    {| status := 200; body := [("winner", JString EmptyString)] |}.
Proof. split; reflexivity. Qed.

(** C8, amended.  A label of a validated list is the part of its segment
    before the [_]: it contains none of the separators [/], [_] and [?],
    and nothing requires it to be non-empty. *)
Theorem labels_without_separators (url : string) (ps : list prize)
    (total : JS.number) :
  parseInput url = inr (ps, total) ->
  Forall2 (fun segment p =>
             exists weightString,
               JS.split "_" segment = [name p; weightString])
          (segments_of (path_of url)) ps /\
  Forall (fun p =>
            occurs "/" (name p) = false /\
            occurs "_" (name p) = false /\
            occurs "?" (name p) = false) ps.
Proof.
  intros H. apply parseInput_inr in H. destruct H as (_ & Hall & _).
  assert (Hseg : Forall (fun segment =>
                           occurs "/" segment = false /\
                           occurs "?" segment = false)
                        (segments_of (path_of url))).
  { apply Forall_forall. intros segment Hin.
    apply segments_of_path in Hin. tauto. }
  induction Hall as [|segment p segments ps Hp _ IH].
  - split; constructor.
  - inversion Hseg as [|s l (Hslash & Hquery) Hrest]; subst.
    destruct (IH Hrest) as [IH1 IH2].
    apply entry_of_Some in Hp. destruct Hp as (ws & Hsplit & _ & _).
    split; constructor; try assumption; [now exists ws|].
    pose proof (split_pieces_free "_" segment) as H1.
    pose proof (split_pieces_without "_" "/" segment Hslash) as H2.
    pose proof (split_pieces_without "_" "?" segment Hquery) as H3.
    rewrite Hsplit in H1, H2, H3.
    inversion H1; inversion H2; inversion H3; subst. auto.
Qed.

Lemma labels_without_separators_witness :
  Forall (fun p =>
            occurs "/" (name p) = false /\
            occurs "_" (name p) = false /\
            occurs "?" (name p) = false) abc.
Proof.
  assert (H : parseInput "/a_50/b_30/c_20" = inr (abc, JS.Num 100))
    by reflexivity.
  destruct (labels_without_separators "/a_50/b_30/c_20" abc (JS.Num 100) H)
    as [_ Hfree].
  exact Hfree.
Defined.

(** C9 as it is worded does not hold.  For
    ["/a_9007199254740992/b_1/c_1"] the entries are in order, but the
    total the handler computes is 9007199254740992 = 2^53, because
    2^53 + 1 is rounded back to 2^53 twice, while the sum of the weights
    is 2^53 + 2. *)
Lemma total_not_exact_sum :
  parseInput "/a_9007199254740992/b_1/c_1" =
    inr ([ {| name := "a"; weight := JS.Num 9007199254740992 |};
           {| name := "b"; weight := JS.Num 1 |};
           {| name := "c"; weight := JS.Num 1 |} ],
         JS.Num 9007199254740992) /\
  sum_weights [ {| name := "a"; weight := JS.Num 9007199254740992 |};
                {| name := "b"; weight := JS.Num 1 |};
                {| name := "c"; weight := JS.Num 1 |} ] = 9007199254740994.
Proof. split; reflexivity. Qed.

(** C9, amended.  The parsing succeeds exactly when there is a segment
    and every segment is accepted; the entries are then those of the
    segments, one for one and in the order of the path, and the total is
    their weights added one after the other in double arithmetic, which
    is their exact sum while the weights are finite and that sum is at
    most 2^53.  The path ["/a_50/b_30/c_20"] gives the entries a:50,
    b:30, c:20 and the total 100. *)
Theorem parseInput_in_order :
  (forall (url : string) (ps : list prize) (total : JS.number),
      parseInput url = inr (ps, total) <->
      segments_of (path_of url) <> [] /\
      Forall2 (fun segment p =>
                 exists weightString,
                   JS.split "_" segment = [name p; weightString] /\
                   JS.parseInt weightString = weight p /\
                   JS.isNaN (weight p) = false /\
                   JS.leZero (weight p) = false)
              (segments_of (path_of url)) ps /\
      total = total_of ps) /\
  (total_of [] = JS.Num 0 /\
   forall (ps : list prize) (p : prize),
     total_of (ps ++ [p]) = JS.add (total_of ps) (weight p)) /\
  (forall ps : list prize,
      Forall finite_weight ps -> sum_weights ps <= 2 ^ 53 ->
      total_of ps = JS.Num (sum_weights ps)) /\
  (forall (segments more : list string) (ps qs : list prize),
      Forall2 (fun segment p => entry_of segment = Some p) segments ps ->
      Forall2 (fun segment p => entry_of segment = Some p) more qs ->
      prizes (parse_loop (segments ++ more) parse_init) = (ps ++ qs)%list) /\
  parseInput "/a_50/b_30/c_20" =
    inr ([ {| name := "a"; weight := JS.Num 50 |};
           {| name := "b"; weight := JS.Num 30 |};
           {| name := "c"; weight := JS.Num 20 |} ], JS.Num 100).
Proof.
  split; [|split; [|split; [|split; [|reflexivity]]]].
  - intros url ps total. rewrite parseInput_inr.
    assert (E : forall segments,
      Forall2 (fun segment p => entry_of segment = Some p) segments ps <->
      Forall2 (fun segment p =>
                 exists weightString,
                   JS.split "_" segment = [name p; weightString] /\
                   JS.parseInt weightString = weight p /\
                   JS.isNaN (weight p) = false /\
                   JS.leZero (weight p) = false) segments ps).
    { intros segments. split; intros H; induction H as [|s p ss qs Hp _ IH];
        constructor; try assumption.
      - apply entry_of_Some in Hp. destruct Hp as (ws & H1 & H2 & H3).
        exists ws. unfold bad_weight in H3. rewrite H2 in H3.
        apply orb_false_iff in H3. tauto.
      - destruct Hp as (ws & H1 & H2 & H3 & H4). apply entry_of_Some.
        exists ws. unfold bad_weight. rewrite H2, H3, H4. auto. }
    rewrite E. tauto.
  - split; [reflexivity|]. intros ps p. unfold total_of.
    now rewrite accumulate_app.
  - intros ps Hfin Hsum. unfold total_of.
    rewrite accumulate_exact; [reflexivity|exact Hfin|lia|lia].
  - intros segments more ps qs H1 H2.
    assert (H : Forall2 (fun segment p => entry_of segment = Some p)
                        (segments ++ more) (ps ++ qs)).
    { now apply Forall2_app. }
    rewrite (parse_loop_all _ _ _ H). reflexivity.
Qed.

Lemma parseInput_in_order_witness :
  prizes (parse_loop (["a_50"] ++ ["b_30"; "c_20"]) parse_init) = abc /\
  total_of abc = JS.Num 100.
Proof.
  destruct parseInput_in_order as (_ & _ & Hexact & Happ & _).
  split.
  - apply (Happ ["a_50"] ["b_30"; "c_20"]
             [{| name := "a"; weight := JS.Num 50 |}]
             [{| name := "b"; weight := JS.Num 30 |};
              {| name := "c"; weight := JS.Num 20 |}]);
      repeat constructor.
  - apply (Hexact abc); [repeat constructor|discriminate].
Defined.

(** C10.  Beyond trailing text, [parseInt] skips leading white space and
    one leading plus sign, and stops at a decimal point: [" 50"] parses
    to 50, ["+5"] to 5 and ["5.9"] to 5.  For digits of value [v] the
    result is the double nearest to [v], and when [v] is positive a
    segment with such a weight-string is accepted with that weight. *)
Theorem parseInt_more_lenient (ws ds rest label : string) (v : Z)
    (good : list string) (ps : list prize) :
  all_white ws = true -> decimal_value ds = Some v -> ds <> EmptyString ->
  stops_digits rest = true ->
  JS.parseInt (ws ++ ds ++ rest) = JS.ofInt v /\
  JS.parseInt (ws ++ String "+" (ds ++ rest)) = JS.ofInt v /\
  (v <= 2 ^ 53 -> JS.ofInt v = JS.Num v) /\
  JS.parseInt " 50" = JS.Num 50 /\
  JS.parseInt "+5" = JS.Num 5 /\
  JS.parseInt "5.9" = JS.Num 5 /\
  (0 < v -> occurs "_" label = false -> occurs "_" ws = false ->
   occurs "_" rest = false ->
   Forall2 (fun segment p => entry_of segment = Some p) good ps ->
   parse_loop (good ++ [(label ++ String "_" (ws ++ ds ++ rest))%string])
              parse_init =
   {| totalWeight := total_of (ps ++ [{| name := label; weight := JS.ofInt v |}]);
      prizes := ps ++ [{| name := label; weight := JS.ofInt v |}];
      isValid := true |} /\
   parse_loop (good ++ [(label ++ String "_" (ws ++ String "+" (ds ++ rest)))%string])
              parse_init =
   {| totalWeight := total_of (ps ++ [{| name := label; weight := JS.ofInt v |}]);
      prizes := ps ++ [{| name := label; weight := JS.ofInt v |}];
      isValid := true |}) /\
  parseInput "/a_ 50/b_+5/c_5.9" =
    inr ([ {| name := "a"; weight := JS.Num 50 |};
           {| name := "b"; weight := JS.Num 5 |};
           {| name := "c"; weight := JS.Num 5 |} ], JS.Num 60).
Proof.
  intros Hws Hv Hne Hstop.
  destruct (decimal_value_mathInt ds v Hv) as [Hds Hm].
  assert (H1 : JS.parseInt (ws ++ ds ++ rest) = JS.ofInt v).
  { rewrite (parseInt_white ws _ Hws), (parseInt_digits ds rest Hne Hds Hstop).
    now rewrite Hm. }
  assert (H2 : JS.parseInt (ws ++ String "+" (ds ++ rest)) = JS.ofInt v).
  { rewrite (parseInt_white ws _ Hws), (parseInt_plus_digits ds rest Hne Hds Hstop).
    now rewrite Hm. }
  assert (Hv0 : 0 <= v) by (rewrite <- Hm; now apply mathInt_nonneg).
  split; [exact H1|]. split; [exact H2|]. split.
  { intros Hsmall. apply ofInt_small. rewrite Z.abs_eq; lia. }
  split; [reflexivity|]. split; [reflexivity|]. split; [reflexivity|].
  split; [|reflexivity].
  intros Hpos Hlabel Hwsf Hrestf Hgood.
  assert (Hdsf : occurs "_" ds = false)
    by (apply (digits_without "_" ds eq_refl Hds)).
  split.
  - rewrite <- H1. apply accepted_segment_appended; try assumption.
    + now rewrite !occurs_app, Hwsf, Hdsf, Hrestf.
    + now apply (positive_weight_ok _ v).
  - rewrite <- H2. apply accepted_segment_appended; try assumption.
    + rewrite occurs_app, Hwsf. simpl. now rewrite occurs_app, Hdsf, Hrestf.
    + now apply (positive_weight_ok _ v).
Qed.

Lemma parseInt_more_lenient_witness :
  JS.parseInt "  +59.5" = JS.Num 59 /\
  parse_loop ["x_1"; "a_  +59.5"] parse_init =
  {| totalWeight := JS.Num 60;
     prizes := [ {| name := "x"; weight := JS.Num 1 |};
                 {| name := "a"; weight := JS.Num 59 |} ];
     isValid := true |}.
Proof.
  assert (H1 : all_white "  " = true) by reflexivity.
  assert (H2 : decimal_value "59" = Some 59) by reflexivity.
  assert (H3 : "59" <> EmptyString) by discriminate.
  assert (H4 : stops_digits ".5" = true) by reflexivity.
  destruct (parseInt_more_lenient "  " "59" ".5" "a" 59 ["x_1"]
              [ {| name := "x"; weight := JS.Num 1 |} ] H1 H2 H3 H4)
    as (_ & Hplus & _ & _ & _ & _ & Hloop & _).
  split; [exact Hplus|].
  assert (H5 : 0 < 59) by reflexivity.
  assert (H8 : Forall2 (fun segment p => entry_of segment = Some p) ["x_1"]
                       [ {| name := "x"; weight := JS.Num 1 |} ])
    by (repeat constructor).
  exact (proj2 (Hloop H5 eq_refl eq_refl eq_refl H8)).
Defined.

(** ** Further properties: the path and its segments *)

(** X1.  The query string does not matter: a URL answers as the part
    before its first [?] does. *)
Theorem query_string_ignored (path query : string) (r : Z) :
  occurs "?" path = false ->
  path_of (path ++ String "?" query) = path /\
  handler (path ++ String "?" query) r = handler path r.
Proof.
  intros H.
  assert (E : path_of (path ++ String "?" query) = path).
  { rewrite (path_of_app _ _ H). change (path_of (String "?" query)) with EmptyString.
    apply append_empty_r. }
  split; [exact E|]. apply handler_same_segments.
  now rewrite E, (path_of_free path H).
Qed.

Lemma query_string_ignored_witness :
  handler "/a_50/b_30?seed=/c_20" (dyadic 1 1) = handler "/a_50/b_30" (dyadic 1 1).
Proof.
  assert (H : occurs "?" "/a_50/b_30" = false) by reflexivity.
  exact (proj2 (query_string_ignored "/a_50/b_30" "seed=/c_20" (dyadic 1 1) H)).
Defined.

(** X2.  The segments of two paths joined by a [/] are the segments of
    the first followed by the segments of the second; in particular a
    [/] in front of a path adds no segment. *)
Theorem segments_of_join (a b : string) :
  segments_of (a ++ String "/" b) = (segments_of a ++ segments_of b)%list /\
  segments_of (String "/" b) = segments_of b.
Proof.
  split; [apply segments_of_slash_app|].
  change (String "/" b) with (EmptyString ++ String "/" b)%string.
  now rewrite segments_of_slash_app.
Qed.

(** X3.  The routing tokens [api] and [picker], an empty segment (a
    doubled [/]) and a [/] at the end of the path change nothing in the
    answer, wherever they stand in the path. *)
Theorem routing_tokens_ignored (a b : string) (r : Z) :
  occurs "?" a = false ->
  handler (a ++ "/api/" ++ b) r = handler (a ++ "/" ++ b) r /\
  handler (a ++ "/picker/" ++ b) r = handler (a ++ "/" ++ b) r /\
  handler (a ++ "//" ++ b) r = handler (a ++ "/" ++ b) r /\
  handler (a ++ "/api") r = handler a r /\
  handler (a ++ "/picker") r = handler a r /\
  handler (a ++ "/") r = handler a r.
Proof.
  intros Ha.
  assert (Hmid : forall token : string,
             occurs "?" token = false -> segments_of token = [] ->
             handler (a ++ String "/" (token ++ String "/" b)) r
             = handler (a ++ String "/" b) r).
  { intros token Ht Hseg. apply handler_same_segments.
    rewrite !(path_of_app a _ Ha).
    change (path_of (String "/" (token ++ String "/" b)))
      with (path_of (String "/" EmptyString ++ (token ++ String "/" b))).
    change (path_of (String "/" b))
      with (path_of (String "/" EmptyString ++ b)).
    rewrite !(path_of_app (String "/" EmptyString) _ eq_refl).
    rewrite (path_of_app token _ Ht).
    change (path_of (String "/" b))
      with (path_of (String "/" EmptyString ++ b)).
    rewrite (path_of_app (String "/" EmptyString) _ eq_refl).
    simpl append. rewrite !segments_of_slash_app, Hseg. reflexivity. }
  assert (Hend : forall token : string,
             occurs "?" token = false -> segments_of token = [] ->
             handler (a ++ String "/" token) r = handler a r).
  { intros token Ht Hseg. apply handler_same_segments.
    assert (E : occurs "?" (a ++ String "/" token) = false).
    { rewrite occurs_app, Ha. simpl. exact Ht. }
    rewrite (path_of_free _ E), (path_of_free _ Ha).
    rewrite segments_of_slash_app, Hseg. apply app_nil_r. }
  repeat split.
  - exact (Hmid "api" eq_refl eq_refl).
  - exact (Hmid "picker" eq_refl eq_refl).
  - exact (Hmid EmptyString eq_refl eq_refl).
  - exact (Hend "api" eq_refl eq_refl).
  - exact (Hend "picker" eq_refl eq_refl).
  - exact (Hend EmptyString eq_refl eq_refl).
Qed.

Lemma routing_tokens_ignored_witness :
  handler "/api/picker/a_50/b_30" (dyadic 1 1) = handler "/api/a_50/b_30" (dyadic 1 1).
Proof.
  assert (H : occurs "?" "/api" = false) by reflexivity.
  destruct (routing_tokens_ignored "/api" "a_50/b_30" (dyadic 1 1) H) as (_ & Hp & _).
  exact Hp.
Defined.

(** X4.  Round trip.  A URL written as the handler documents it, one
    [/] before every segment and possibly a query string after them,
    is read back as exactly these segments, provided every segment is
    non-empty, is not a routing token and contains neither [/] nor [?].
    When the segments are accepted entries, the parsing gives these
    entries back in order, with their weights added up in order as the
    handler adds them. *)
Theorem url_round_trip (segments : list string) (query : string) :
  Forall (fun segment =>
            keep_segment segment = true /\
            occurs "/" segment = false /\ occurs "?" segment = false)
         segments ->
  query = EmptyString \/ (exists tail, query = String "?" tail) ->
  segments_of (path_of (url_of_segments segments ++ query)) = segments /\
  forall ps : list prize,
    segments <> [] ->
    Forall2 (fun segment p => entry_of segment = Some p) segments ps ->
    parseInput (url_of_segments segments ++ query) = inr (ps, total_of ps).
Proof.
  intros Hok Hquery.
  assert (E : segments_of (path_of (url_of_segments segments ++ query))
              = segments).
  { rewrite path_of_app.
    - rewrite (path_of_query query Hquery), append_empty_r.
      apply segments_of_url. eapply Forall_impl; [|exact Hok].
      simpl. tauto.
    - apply url_of_segments_no_query. eapply Forall_impl; [|exact Hok].
      simpl. tauto. }
  split; [exact E|]. intros ps Hne Hall.
  apply parseInput_inr. rewrite E. auto.
Qed.

Lemma url_round_trip_witness :
  parseInput "/a_50/b_30/c_20?x=1" = inr (abc, JS.Num 100).
Proof.
  assert (H : Forall (fun segment =>
                        keep_segment segment = true /\
                        occurs "/" segment = false /\
                        occurs "?" segment = false)
                     ["a_50"; "b_30"; "c_20"]) by (repeat constructor).
  assert (Hq : "?x=1" = EmptyString \/ (exists tail, "?x=1" = String "?" tail))
    by (right; exists "x=1"; reflexivity).
  destruct (url_round_trip ["a_50"; "b_30"; "c_20"] "?x=1" H Hq) as [_ Hparse].
  apply (Hparse abc); [discriminate|repeat constructor].
Defined.

(** ** Further properties: weight-strings *)

(** X6.  [parseInt(s, 10)] gives a number exactly when [s] is white
    space, then an optional sign, then at least one digit, then text
    that does not start with a digit; the number is then the double
    nearest to the value of the digits with that sign.  On every other
    string it gives [NaN]. *)
Theorem parseInt_characterised (s : string) :
  (JS.parseInt s <> JS.NaN <->
   exists ws sign ds rest,
     s = (ws ++ sign ++ ds ++ rest)%string /\
     all_white ws = true /\
     (sign = EmptyString \/ sign = "+" \/ sign = "-") /\
     ds <> EmptyString /\ all_digits ds = true /\ stops_digits rest = true) /\
  (forall (ws sign ds rest : string) (v : Z),
      s = (ws ++ sign ++ ds ++ rest)%string ->
      all_white ws = true ->
      (sign = EmptyString \/ sign = "+" \/ sign = "-") ->
      ds <> EmptyString -> decimal_value ds = Some v ->
      stops_digits rest = true ->
      JS.parseInt s = JS.ofInt (sign_factor sign * v) /\
      (v <= 2 ^ 53 -> JS.parseInt s = JS.Num (sign_factor sign * v))).
Proof.
  assert (Hval : forall (ws sign ds rest : string) (v : Z),
      s = (ws ++ sign ++ ds ++ rest)%string ->
      all_white ws = true ->
      (sign = EmptyString \/ sign = "+" \/ sign = "-") ->
      ds <> EmptyString -> all_digits ds = true -> JS.mathInt ds = v ->
      stops_digits rest = true ->
      JS.parseInt s = JS.ofInt (sign_factor sign * v)).
  { intros ws sign ds rest v -> Hws Hsign Hne Hds Hm Hrest.
    rewrite (parseInt_white ws _ Hws).
    destruct Hsign as [->|[->| ->]]; simpl append; simpl sign_factor.
    - rewrite (parseInt_digits ds rest Hne Hds Hrest), Hm. f_equal; lia.
    - rewrite (parseInt_plus_digits ds rest Hne Hds Hrest), Hm. f_equal; lia.
    - rewrite (parseInt_minus_digits ds rest Hne Hds Hrest), Hm. f_equal; lia. }
  split.
  - split.
    + intros H. destruct (parseInt_shape s H)
        as (ws & sign & ds & rest & H1 & H2 & H3 & H4 & H5 & H6 & _).
      exists ws, sign, ds, rest.
      repeat (split; [assumption|]); assumption.
    + intros (ws & sign & ds & rest & H1 & H2 & H3 & H4 & H5 & H6).
      rewrite (Hval ws sign ds rest _ H1 H2 H3 H4 H5 eq_refl H6).
      apply ofInt_not_NaN.
  - intros ws sign ds rest v H1 H2 H3 H4 Hv H6.
    destruct (decimal_value_mathInt ds v Hv) as [H5 Hm].
    pose proof (Hval ws sign ds rest v H1 H2 H3 H4 H5 Hm H6) as E.
    split; [exact E|]. intros Hsmall. rewrite E. apply ofInt_small.
    assert (Hv0 : 0 <= v) by (rewrite <- Hm; now apply mathInt_nonneg).
    destruct H3 as [->|[->| ->]]; simpl sign_factor; lia.
Qed.

(** X7.  A weight-string whose first character after the white space is
    a minus sign never gives a positive weight: it parses to [NaN], to
    [-Infinity] or to a value that is at most 0, and a request with such
    a segment is answered with the format error. *)
Theorem negative_weight_rejected (ws tail : string) :
  all_white ws = true ->
  (JS.parseInt (ws ++ String "-" tail) = JS.NaN \/
   JS.parseInt (ws ++ String "-" tail) = JS.NegInfinity \/
   exists v, JS.parseInt (ws ++ String "-" tail) = JS.Num v /\ v <= 0) /\
  forall (label url : string) (r : Z),
    occurs "_" label = false ->
    occurs "_" (ws ++ String "-" tail) = false ->
    In (label ++ String "_" (ws ++ String "-" tail))%string
       (segments_of (path_of url)) ->
    handler url r = invalid_format_response.
Proof.
  intros Hws.
  assert (Hbad : JS.parseInt (ws ++ String "-" tail) = JS.NaN \/
                 JS.leZero (JS.parseInt (ws ++ String "-" tail)) = true).
  { rewrite (parseInt_white ws _ Hws). unfold JS.parseInt.
    simpl JS.trimStart. cbv iota zeta.
    pose proof (digitsPrefix_all_digits tail) as Hds.
    destruct (JS.digitsPrefix tail) as [|d ds]; [now left|].
    right. rewrite ofInt_leZero. apply Z.leb_le.
    pose proof (mathInt_nonneg _ Hds). lia. }
  split.
  - destruct Hbad as [H|H]; [now left|].
    destruct (JS.parseInt (ws ++ String "-" tail)) as [|v| |];
      try discriminate; [|now (right; left)].
    right. right. exists v. simpl in H. apply Z.leb_le in H. auto.
  - intros label url r Hlabel Hfree Hin.
    apply handler_invalid_exists. apply Exists_exists.
    eexists. split; [exact Hin|].
    apply entry_of_None. right.
    rewrite (split_two "_" label _ Hlabel Hfree). unfold JS.item. simpl nth.
    now apply bad_weight_iff.
Qed.

Lemma negative_weight_rejected_witness :
  handler "/a_-5/b_10" 0 = invalid_format_response.
Proof.
  destruct (negative_weight_rejected EmptyString "5" eq_refl) as [_ H].
  apply (H "a" "/a_-5/b_10" 0 eq_refl eq_refl). left. reflexivity.
Defined.
Lemma all_zeros_digits (zs : string) :
  all_zeros zs = true -> all_digits zs = true.
Proof.
  induction zs as [|c zs IH]; simpl; [reflexivity|].
  intros H. apply andb_true_iff in H. destruct H as [Hc Hzs].
  apply Ascii.eqb_eq in Hc. subst. now rewrite (IH Hzs).
Qed.

Lemma all_digits_app (a b : string) :
  all_digits (a ++ b) = all_digits a && all_digits b.
Proof.
  induction a as [|c a IH]; simpl; [reflexivity|].
  now rewrite IH, andb_assoc.
Qed.

Lemma mathIntFrom_zeros (zs ds : string) :
  all_zeros zs = true ->
  JS.mathIntFrom 0 (zs ++ ds) = JS.mathIntFrom 0 ds.
Proof.
  induction zs as [|c zs IH]; simpl; [reflexivity|].
  intros H. apply andb_true_iff in H. destruct H as [Hc Hzs].
  apply Ascii.eqb_eq in Hc. subst. exact (IH Hzs).
Qed.

(** X8.  Leading zeros do not change a weight (the digits are read in
    base 10, never as octal), and a weight-string whose digits are all
    zeros parses to 0 and is rejected. *)
Theorem leading_zeros (zs ds rest : string) :
  all_zeros zs = true -> all_digits ds = true -> stops_digits rest = true ->
  (ds <> EmptyString ->
   JS.parseInt (zs ++ ds ++ rest) = JS.parseInt (ds ++ rest)) /\
  (zs <> EmptyString ->
   JS.parseInt (zs ++ rest) = JS.Num 0 /\ bad_weight (zs ++ rest) = true).
Proof.
  intros Hzs Hds Hrest. pose proof (all_zeros_digits zs Hzs) as Hzd. split.
  - intros Hne. rewrite <- append_assoc.
    rewrite (parseInt_digits (zs ++ ds) rest).
    + rewrite (parseInt_digits ds rest Hne Hds Hrest). f_equal.
      apply (mathIntFrom_zeros zs ds Hzs).
    + destruct zs; [exact Hne|discriminate].
    + now rewrite all_digits_app, Hzd, Hds.
    + exact Hrest.
  - intros Hne.
    assert (E : JS.parseInt (zs ++ rest) = JS.Num 0).
    { rewrite (parseInt_digits zs rest Hne Hzd Hrest).
      assert (Em : JS.mathInt zs = 0).
      { unfold JS.mathInt. rewrite <- (append_empty_r zs).
        now rewrite (mathIntFrom_zeros zs EmptyString Hzs). }
      now rewrite Em. }
    split; [exact E|]. unfold bad_weight. now rewrite E.
Qed.

Lemma leading_zeros_witness :
  JS.parseInt "0050%" = JS.parseInt "50%" /\ bad_weight "000x" = true.
Proof.
  destruct (leading_zeros "00" "50" "%" eq_refl eq_refl eq_refl) as [H _].
  destruct (leading_zeros "000" EmptyString "x" eq_refl eq_refl eq_refl)
    as [_ H'].
  split.
  - apply H. discriminate.
  - apply H'. discriminate.
Defined.

(** ** Further properties: the selection *)

(** X10.  A larger draw never selects an earlier entry: the position
    at which the loop stops does not decrease when the draw grows. *)
Theorem selection_monotone (ps : list prize) (total : Z) (r1 r2 : Z)
    (i j : nat) :
  0 <= total -> r1 <= r2 ->
  select_index (JS.mulRandom r1 (JS.Num total)) ps (JS.Num 0) = Some i ->
  select_index (JS.mulRandom r2 (JS.Num total)) ps (JS.Num 0) = Some j ->
  (i <= j)%nat.
Proof.
  intros Ht Hr Hi Hj.
  rewrite (mulRandom_num r1 _ Ht) in Hi. rewrite (mulRandom_num r2 _ Ht) in Hj.
  assert (Hw : JS.round53 (r1 * total) <= JS.round53 (r2 * total)).
  { apply round53_mono_all. now apply Z.mul_le_mono_nonneg_r. }
  apply select_index_first in Hi. destruct Hi as (_ & _ & Hfirst).
  apply select_index_first in Hj. destruct Hj as (_ & Hlt & _).
  destruct (Nat.le_gt_cases i j) as [Hle|Hgt]; [exact Hle|].
  exfalso. specialize (Hfirst j Hgt).
  rewrite (ltb_mono _ _ _ Hw Hlt) in Hfirst. discriminate.
Qed.

Lemma selection_monotone_witness :
  select_index (JS.mulRandom (dyadic 1 4) (JS.Num 100)) abc (JS.Num 0)
    = Some 0%nat /\
  select_index (JS.mulRandom (dyadic 15 4) (JS.Num 100)) abc (JS.Num 0)
    = Some 2%nat /\
  (0 <= 2)%nat.
Proof.
  assert (H1 : select_index (JS.mulRandom (dyadic 1 4) (JS.Num 100)) abc
                 (JS.Num 0) = Some 0%nat) by reflexivity.
  assert (H2 : select_index (JS.mulRandom (dyadic 15 4) (JS.Num 100)) abc
                 (JS.Num 0) = Some 2%nat) by reflexivity.
  assert (Ht : 0 <= 100) by lia.
  assert (Hr : dyadic 1 4 <= dyadic 15 4) by discriminate.
  split; [exact H1|]. split; [exact H2|].
  exact (selection_monotone abc 100 (dyadic 1 4) (dyadic 15 4) 0 2
           Ht Hr H1 H2).
Defined.

(** X11.  The loop never looks past the entry it stops at: on a list
    followed by more entries it gives what it gives on the list alone,
    and goes on into the added entries, from the weights accumulated so
    far, only when the list alone gives no winner. *)
Theorem select_loop_append (w : JS.scaled) (ps qs : list prize)
    (c : JS.number) :
  select_loop w (ps ++ qs) c =
  match select_loop w ps c with
  | Some label => Some label
  | None => select_loop w qs (accumulate c ps)
  end.
Proof.
  revert c. induction ps as [|p ps IH]; intros c; [reflexivity|].
  cbn [app select_loop].
  destruct (JS.ltb w (JS.add c (weight p))); [reflexivity|].
  now rewrite IH, accumulate_cons.
Qed.

(** The running total is at least what it started from, at least every
    weight added, and at least the number of weights added or 2^53. *)
Lemma accumulate_bounds (ps : list prize) (c : JS.number) (k : Z) :
  Forall (fun p => positive_number (weight p)) ps ->
  c = JS.Num 0 \/ positive_number c -> 0 <= k ->
  num_le (JS.Num (Z.min k (2 ^ 53))) c ->
  num_le c (accumulate c ps) /\
  Forall (fun p => num_le (weight p) (accumulate c ps)) ps /\
  num_le (JS.Num (Z.min (k + Z.of_nat (List.length ps)) (2 ^ 53)))
         (accumulate c ps).
Proof.
  intros H. revert c k. induction H as [|p ps Hp H IH]; intros c k Hc Hk Hmin.
  - simpl. rewrite Z.add_0_r. split; [|split; [constructor|exact Hmin]].
    destruct Hc as [->|[->|(z & -> & _)]]; cbn [num_le]; (exact I || lia).
  - rewrite accumulate_cons.
    destruct (add_positive c (weight p) Hc Hp) as (Hadd & Hc' & Hw').
    assert (Hstep : num_le (JS.Num (Z.min (k + 1) (2 ^ 53)))
                           (JS.add c (weight p))).
    { assert (Hc2 : c = JS.Infinity \/ exists x, c = JS.Num x /\ 0 <= x).
      { destruct Hc as [->|[->|(x & -> & Hx & _)]].
        - right. exists 0. split; [reflexivity|lia].
        - now left.
        - right. exists x. split; [reflexivity|lia]. }
      destruct Hc2 as [Ec|(x & Ec & Hx)]; rewrite Ec in *.
      - destruct Hp as [Ep|(z & Ep & _)]; rewrite Ep; exact I.
      - destruct Hp as [Ep|(z & Ep & Hz & _)]; rewrite Ep; [exact I|].
        cbn [num_le] in Hmin. cbn [JS.add].
        assert (Hsum : 0 < x + z) by lia.
        destruct (ofInt_pos (x + z) Hsum) as [[E|E] _]; rewrite E; [exact I|].
        cbn [num_le].
        assert (Hfix : JS.round53 (Z.min (k + 1) (2 ^ 53))
                       = Z.min (k + 1) (2 ^ 53))
          by (apply round53_small; lia).
        rewrite <- Hfix. apply round53_mono; lia. }
    destruct (IH (JS.add c (weight p)) (k + 1)) as (H1 & H2 & H3);
      [now right|lia|exact Hstep|].
    split; [exact (num_le_trans _ _ _ Hc' H1)|]. split.
    + constructor; [exact (num_le_trans _ _ _ Hw' H1)|exact H2].
    + cbn [List.length]. rewrite Nat2Z.inj_succ.
      replace (k + Z.succ (Z.of_nat (List.length ps)))
        with (k + 1 + Z.of_nat (List.length ps)) by lia.
      exact H3.
Qed.

(** X13.  When the parsing succeeds there is one entry per segment,
    every weight is at least 1 and at most the total, and the total is
    at least the number of entries, or at least 2^53. *)
Theorem weights_bounded (url : string) (ps : list prize) (total : JS.number) :
  parseInput url = inr (ps, total) ->
  List.length ps = List.length (segments_of (path_of url)) /\
  Forall (fun p => num_le (JS.Num 1) (weight p) /\ num_le (weight p) total) ps /\
  (num_le (JS.Num (Z.of_nat (List.length ps))) total \/
   num_le (JS.Num (2 ^ 53)) total).
Proof.
  intros H. apply parseInput_inr in H. destruct H as (_ & Hall & ->).
  split; [symmetry; exact (Forall2_length Hall)|].
  assert (Hpos : Forall (fun p => positive_number (weight p)) ps).
  { clear - Hall. induction Hall as [|s p ss ps Hp _ IH]; constructor; [|exact IH].
    now apply (entry_of_positive s). }
  destruct (accumulate_bounds ps (JS.Num 0) 0 Hpos) as (_ & Hw & Hn);
    [now left|lia|simpl; lia|].
  fold (total_of ps) in Hw, Hn. split.
  - rewrite Forall_forall in *. intros p Hin. split; [|exact (Hw p Hin)].
    destruct (Hpos p Hin) as [->|(z & -> & Hz & _)]; simpl; [exact I|lia].
  - rewrite Z.add_0_l in Hn.
    destruct (Z.le_gt_cases (Z.of_nat (List.length ps)) (2 ^ 53)) as [Hs|Hl].
    + left. now rewrite Z.min_l in Hn.
    + right. rewrite Z.min_r in Hn by lia. exact Hn.
Qed.

Lemma weights_bounded_witness :
  Forall (fun p => num_le (JS.Num 1) (weight p) /\
                   num_le (weight p) (JS.Num 100)) abc.
Proof.
  assert (H : parseInput "/a_50/b_30/c_20" = inr (abc, JS.Num 100))
    by reflexivity.
  destruct (weights_bounded "/a_50/b_30/c_20" abc (JS.Num 100) H)
    as (_ & Hb & _).
  exact Hb.
Defined.
